(** * Word Rush: relay registry, host round logic and client reconciliation

    A shallow embedding of the multiplayer word-guessing game:
    - [types.ts]            the data model;
    - [server.js]           the relay: room registry, host migration, broadcast;
    - [geminiService.ts]    the word source with its built-in catalog;
    - [App.tsx]             the host round logic and the client listeners.

    JavaScript numbers are modelled by [Z] and [nat]: every number the
    modelled code computes is an integer far below 2^53, where double
    arithmetic is exact.  Strings are Rocq strings (byte strings); the two
    string primitives used by [handleGuess] and the lobby form ([trim],
    [toUpperCase]) are modelled on ASCII text, and statements about typed
    text are made for ASCII text ([App.isAscii]). *)

From Stdlib Require Import ZArith String Ascii List Lia DecimalString.
From stdpp Require Import base gmap strings list fin_maps.


Local Open Scope Z_scope.

(* ===================================================================== *)
(** * types.ts *)
(* ===================================================================== *)

Record Player := mkPlayer {
  p_id : string;
  p_name : string;
  p_score : Z;
  p_isSelf : bool;
  p_avatarColor : string
}.

Inductive Difficulty := easy | medium | hard.

Record WordData := mkWord {
  word : string;
  hints : list string;
  difficulty : Difficulty
}.

Inductive GameStatus := LOBBY | PLAYING | ROUND_OVER | GAME_OVER.

Inductive ChatType := chat | system | guess_correct | guess_wrong.

Record ChatMessage := mkChat {
  m_id : string;
  m_playerId : string;
  m_playerName : string;
  m_text : string;
  m_type : ChatType;
  m_timestamp : Z
}.

#[global] Instance GameStatus_eq_dec : EqDecision GameStatus.
Proof. solve_decision. Defined.

(** The [data] object of a [SYNC_STATE] action: any subset of the fields.
    [None] is an absent field ([undefined] on the receiving side). *)
Record SyncState := mkSync {
  ss_status : option GameStatus;
  ss_currentWord : option WordData;
  ss_timeLeft : option Z;
  ss_round : option nat;
  ss_revealedIndices : option (list nat);
  ss_revealedHintCount : option nat;
  ss_maxRounds : option nat
}.

(** The payload [{type, data}] of a [GAME_ACTION] envelope. *)
Inductive Action :=
| SYNC_STATE (data : SyncState)
| SYNC_TIME (timeLeft : Z)
| SYNC_HINT_UPDATE (revealedIndices : list nat) (revealedHintCount : nat)
| PLAYER_SCORED (playerId : string) (score points : Z) (playerName : string)
| CHAT (msg : ChatMessage).

(* ===================================================================== *)
(** * server.js: the relay *)
(* ===================================================================== *)

Module Relay.

(** A WebSocket connection of the server, named by a number. *)
Definition Conn := nat.

(** [{ ...player, ws }]: a room member is the joined player plus its socket. *)
Record Member := mkMember {
  mem_player : Player;
  ws : Conn
}.

Definition mem_id (m : Member) : string := p_id (mem_player m).

(** [RoomObject: { players: Array, hostId: string }] *)
Record Room := mkRoom {
  players : list Member;
  hostId : string
}.

(** The two variables each [connection] callback closes over. *)
Record ConnVars := mkVars {
  currentRoomId : option string;
  currentPlayerId : option string
}.

Definition noVars : ConnVars := mkVars None None.

(** The registry: [const rooms = new Map()] and, per connection, the
    closure variables of its handlers. *)
Record Server := mkServer {
  rooms : gmap string Room;
  conns : gmap Conn ConnVars
}.

Definition init : Server := mkServer ∅ ∅.

Definition vars (st : Server) (c : Conn) : ConnVars :=
  default noVars (conns st !! c).

(** Messages the relay sends. *)
Inductive ServerMsg :=
| ROOM_JOINED (isHost : bool) (members : list Player)
| PLAYER_JOINED (p : Player)
| PLAYER_LEFT (id : option string)
| BECAME_HOST
| GAME_ACTION (payload : Action).

(** Messages the relay receives (other types are ignored by the handler). *)
Inductive ClientMsg :=
| JOIN_ROOM (roomId : string) (player : Player)
| GAME_ACTION_req (payload : Action).

Inductive Event :=
| Message (c : Conn) (m : ClientMsg)
| Close (c : Conn).

(** One [ws.send]: the socket written to and the envelope. *)
Definition Sent : Type := Conn * ServerMsg.

Section Handlers.

(** [isOpen c] is [ws.readyState === 1] for socket [c] at the time a
    handler runs; it is the transport's state, not the registry's. *)
Variable isOpen : Conn → bool.

(** [room.players.forEach(p => { if (p.id !== excludeId && p.ws &&
    p.ws.readyState === 1) p.ws.send(...) })] *)
Definition sendAll (ps : list Member) (msg : ServerMsg)
    (excludeId : option string) : list Sent :=
  (λ p, (ws p, msg)) <$>
    filter (λ p, Some (mem_id p) ≠ excludeId ∧ isOpen (ws p) = true) ps.

(** [function broadcastToRoom(roomId, type, payload, excludeId = null)] *)
Definition broadcastToRoom (rs : gmap string Room) (roomId : option string)
    (msg : ServerMsg) (excludeId : option string) : list Sent :=
  match roomId ≫= (rs !!.) with
  | None => []
  | Some room => sendAll (players room) msg excludeId
  end.

(** [room.players[i].ws = ws; room.players[i].name = player.name] *)
Definition reconnect (c : Conn) (player : Player) (m : Member) : Member :=
  let p := mem_player m in
  mkMember (mkPlayer (p_id p) (p_name player) (p_score p) (p_isSelf p)
                     (p_avatarColor p)) c.

(** The [JOIN_ROOM] branch of the message handler. *)
Definition joinRoom (st : Server) (c : Conn) (roomId : string)
    (player : Player) : Server * list Sent :=
  let cs := <[c := mkVars (Some roomId) (Some (p_id player))]> (conns st) in
  let room :=
    match rooms st !! roomId with
    | Some room => room
    | None => mkRoom [] (p_id player)
    end in
  let ps :=
    match list_find (λ p, mem_id p = p_id player) (players room) with
    | Some (i, m) => <[i := reconnect c player m]> (players room)
    | None => players room ++ [mkMember player c]
    end in
  let rs := <[roomId := mkRoom ps (hostId room)]> (rooms st) in
  let isHost := bool_decide (hostId room = p_id player) in
  (mkServer rs cs,
   (c, ROOM_JOINED isHost (mem_player <$> ps))
     :: broadcastToRoom rs (Some roomId) (PLAYER_JOINED player)
          (Some (p_id player))).

(** The [GAME_ACTION] branch: forward to the sender's room, sender excluded. *)
Definition relayAction (st : Server) (c : Conn) (payload : Action)
    : Server * list Sent :=
  (st, broadcastToRoom (rooms st) (currentRoomId (vars st c))
         (GAME_ACTION payload) (currentPlayerId (vars st c))).

Definition onMessage (st : Server) (c : Conn) (m : ClientMsg)
    : Server * list Sent :=
  match m with
  | JOIN_ROOM roomId player => joinRoom st c roomId player
  | GAME_ACTION_req payload => relayAction st c payload
  end.

(** [if (currentRoomId && ...)]: a string is truthy unless it is empty. *)
Definition truthy (s : option string) : bool :=
  match s with
  | Some s => negb (String.eqb s "")
  | None => false
  end.

(** [room.players.filter(p => p.id !== currentPlayerId)] *)
Definition others (leaving : option string) (ps : list Member) : list Member :=
  filter (λ p, Some (mem_id p) ≠ leaving) ps.

(** [ws.on('close', ...)] *)
Definition onClose (st : Server) (c : Conn) : Server * list Sent :=
  let v := vars st c in
  if truthy (currentRoomId v) then
    match currentRoomId v ≫= (rooms st !!.), currentRoomId v with
    | Some room, Some roomId =>
        let ps := others (currentPlayerId v) (players room) in
        let left := sendAll ps (PLAYER_LEFT (currentPlayerId v)) None in
        match ps with
        | [] => (mkServer (delete roomId (rooms st)) (conns st), left)
        | newHost :: _ =>
            if bool_decide (Some (hostId room) = currentPlayerId v) then
              (mkServer (<[roomId := mkRoom ps (mem_id newHost)]> (rooms st))
                        (conns st),
               left ++ (if isOpen (ws newHost)
                        then [(ws newHost, BECAME_HOST)] else []))
            else
              (mkServer (<[roomId := mkRoom ps (hostId room)]> (rooms st))
                        (conns st), left)
        end
    | _, _ => (st, [])
    end
  else (st, []).

Definition step (st : Server) (e : Event) : Server * list Sent :=
  match e with
  | Message c m => onMessage st c m
  | Close c => onClose st c
  end.

End Handlers.

Definition isBecameHost (s : Sent) : bool :=
  match s.2 with BECAME_HOST => true | _ => false end.

(** Runs an event trace; every event comes with the sockets' state at
    the time its handler runs. *)
Fixpoint run (st : Server) (tr : list ((Conn → bool) * Event)) : Server :=
  match tr with
  | [] => st
  | (isOpen, e) :: tr => run (fst (step isOpen st e)) tr
  end.

(** The registry states the relay can be in. *)
Inductive reachable : Server → Prop :=
| reach_init : reachable init
| reach_step st isOpen e :
    reachable st → reachable (fst (step isOpen st e)).

(** Member ids are pairwise distinct and the host is one of them. *)
Definition room_ok (room : Room) : Prop :=
  NoDup (mem_id <$> players room) ∧ hostId room ∈ mem_id <$> players room.

Definition registry_ok (st : Server) : Prop :=
  ∀ r room, rooms st !! r = Some room → room_ok room.

End Relay.

(* ===================================================================== *)
(** * geminiService.ts: the word source *)
(* ===================================================================== *)

Module Gemini.

(** The built-in catalog. *)
Definition GIANT_WORD_LIST : list WordData := [
  mkWord "BANANA"
    ["I am a fruit"; "I am yellow and curved"; "Monkeys love to eat me"] easy;
  mkWord "ELEPHANT"
    ["I am a very large land animal";
     "I have a long trunk";
     "I have big floppy ears"] easy;
  mkWord "GALAXY"
    ["I contain billions of stars";
     "The Milky Way is one of me";
     "I am held together by gravity"] medium;
  mkWord "ORCHESTRA"
    ["I am a large group of musicians";
     "I have a conductor";
     "I play symphonies"] hard;
  mkWord "VOLCANO"
    ["I am a mountain that opens downward";
     "I can erupt with lava";
     "I often have a crater"] medium;
  mkWord "PIZZA"
    ["I am a popular Italian dish";
     "I am round and sliced";
     "I have cheese and tomato sauce"] easy;
  mkWord "ASTRONAUT"
    ["I travel to space";
     "I wear a special suit";
     "I work on the ISS"] medium;
  mkWord "LIBRARY"
    ["I am a place with many books";
     "You must be quiet inside me";
     "You can borrow things from me"] easy;
  mkWord "DIAMOND"
    ["I am a very hard gemstone";
     "I am made of compressed carbon";
     "I am a girl's best friend"] medium;
  mkWord "PYRAMID"
    ["I am a triangular structure";
     "I am famous in Egypt";
     "I served as a tomb for pharaohs"] medium;
  mkWord "TORNADO"
    ["I am a violently rotating column of air";
     "I am often called a twister";
     "I occur during severe thunderstorms"] medium;
  mkWord "KANGAROO"
    ["I am an animal from Australia";
     "I hop to move around";
     "I carry my baby in a pouch"] easy;
  mkWord "CHOCOLATE"
    ["I am a sweet treat";
     "I am made from cocoa beans";
     "I come in dark, milk, and white varieties"] easy;
  mkWord "OCTOPUS"
    ["I live in the ocean"; "I have eight arms"; "I can squirt ink"] medium;
  mkWord "RAINBOW"
    ["I appear after rain";
     "I have seven colors";
     "I am an optical illusion in the sky"] easy;
  mkWord "HELICOPTER"
    ["I am an aircraft";
     "I have spinning rotors on top";
     "I can hover in place"] medium;
  mkWord "SNOWMAN"
    ["I am made of frozen water";
     "I have a carrot nose";
     "I melt in the sun"] easy;
  mkWord "TELESCOPE"
    ["I help you see far away";
     "Astronomers use me";
     "I use lenses or mirrors"] medium;
  mkWord "VAMPIRE"
    ["I am a mythical creature";
     "I drink blood";
     "I dislike garlic and sunlight"] easy;
  mkWord "SKELETON"
    ["I am inside your body";
     "I am made of bones";
     "I protect your organs"] easy;
  mkWord "SUBMARINE"
    ["I travel underwater";
     "I am used by the navy";
     "I use sonar to navigate"] medium;
  mkWord "JUNGLE"
    ["I am a dense forest";
     "I have a tropical climate";
     "Many wild animals live here"] medium;
  mkWord "BUTTERFLY"
    ["I start as a caterpillar";
     "I have colorful wings";
     "I drink nectar from flowers"] easy;
  mkWord "ROBOT"
    ["I am a machine";
     "I can be programmed";
     "I might take over the world someday"] medium;
  mkWord "ISLAND"
    ["I am land surrounded by water";
     "Hawaii is a famous example";
     "I can be tropical or rocky"] easy;
  mkWord "DENTIST"
    ["I am a doctor for teeth";
     "I fill cavities";
     "I tell you to floss"] medium;
  mkWord "PENGUIN"
    ["I am a bird that cannot fly";
     "I live in the southern hemisphere";
     "I waddle and swim"] easy;
  mkWord "FIREWORKS"
    ["I am used for celebrations";
     "I explode with light and noise";
     "I am common on New Year's Eve"] medium;
  mkWord "SUNFLOWER"
    ["I am a tall yellow flower";
     "I produce edible seeds";
     "I turn my head to follow the sun"] easy;
  mkWord "COMPASS"
    ["I am a navigation tool";
     "I always point North";
     "I use magnetism"] medium
].

(** What the call to the Gemini API does inside the [try] block. *)
Inductive SourceOutcome :=
| Raises
    (** the client constructor or [generateContent] throws or rejects *)
| Response (text : option string) (parsed : option (list WordData)).
    (** it answers with [response.text = text]; [parsed] is the value of
        [JSON.parse(response.text)], [None] when parsing throws *)

(** A string used as a condition: [undefined] and the empty string are falsy. *)
Definition truthy (s : option string) : bool :=
  match s with
  | Some s => negb (String.eqb s "")
  | None => false
  end.

(** [[...GIANT_WORD_LIST].sort(() => 0.5 - Math.random()).slice(0, count)].
    [shuffled] is the array the sort with the random comparator returns. *)
Definition fallback (shuffled : list WordData) (count : nat) : list WordData :=
  take count shuffled.

(** [generateWords(count)].  [apiKey] is [process.env.API_KEY]. *)
Definition generateWords (apiKey : option string) (src : SourceOutcome)
    (shuffled : list WordData) (count : nat) : list WordData :=
  if negb (truthy apiKey) then fallback shuffled count
  else
    match src with
    | Raises => fallback shuffled count
    | Response text parsed =>
        if truthy text then
          match parsed with
          | Some words => words
          | None => fallback shuffled count
          end
        else fallback shuffled count
    end.

(** A round as the data model wants it: a word and exactly three hints. *)
Definition validRound (w : WordData) : Prop :=
  word w ≠ "" ∧ length (hints w) = 3%nat.

End Gemini.

(* ===================================================================== *)
(** * App.tsx: host round logic and client listeners *)
(* ===================================================================== *)

Module App.

Definition ROUND_TIME : Z := 60.
Definition HINT_INTERVAL : Z := 15.

(** The component state (the [useState] cells the handlers touch). *)
Record State := mkState {
  player : option Player;
  otherPlayers : list Player;
  isHost : bool;
  gameStatus : GameStatus;
  currentWord : option WordData;
  wordList : list WordData;
  round : nat;
  timeLeft : Z;
  revealedIndices : list nat;
  revealedHintCount : nat;
  roundWinners : list Player;
  chatMessages : list ChatMessage;
  inputValue : string
}.

Definition initial : State :=
  mkState None [] false LOBBY None [] 0 ROUND_TIME [] 1 [] [] "".

(** ** State setters *)

Definition setPlayer v (s : State) : State :=
  mkState v (otherPlayers s) (isHost s) (gameStatus s) (currentWord s)
    (wordList s) (round s) (timeLeft s) (revealedIndices s)
    (revealedHintCount s) (roundWinners s) (chatMessages s) (inputValue s).
Definition setOtherPlayers v (s : State) : State :=
  mkState (player s) v (isHost s) (gameStatus s) (currentWord s)
    (wordList s) (round s) (timeLeft s) (revealedIndices s)
    (revealedHintCount s) (roundWinners s) (chatMessages s) (inputValue s).
Definition setIsHost v (s : State) : State :=
  mkState (player s) (otherPlayers s) v (gameStatus s) (currentWord s)
    (wordList s) (round s) (timeLeft s) (revealedIndices s)
    (revealedHintCount s) (roundWinners s) (chatMessages s) (inputValue s).
Definition setGameStatus v (s : State) : State :=
  mkState (player s) (otherPlayers s) (isHost s) v (currentWord s)
    (wordList s) (round s) (timeLeft s) (revealedIndices s)
    (revealedHintCount s) (roundWinners s) (chatMessages s) (inputValue s).
Definition setCurrentWord v (s : State) : State :=
  mkState (player s) (otherPlayers s) (isHost s) (gameStatus s) v
    (wordList s) (round s) (timeLeft s) (revealedIndices s)
    (revealedHintCount s) (roundWinners s) (chatMessages s) (inputValue s).
Definition setWordList v (s : State) : State :=
  mkState (player s) (otherPlayers s) (isHost s) (gameStatus s)
    (currentWord s) v (round s) (timeLeft s) (revealedIndices s)
    (revealedHintCount s) (roundWinners s) (chatMessages s) (inputValue s).
Definition setRound v (s : State) : State :=
  mkState (player s) (otherPlayers s) (isHost s) (gameStatus s)
    (currentWord s) (wordList s) v (timeLeft s) (revealedIndices s)
    (revealedHintCount s) (roundWinners s) (chatMessages s) (inputValue s).
Definition setTimeLeft v (s : State) : State :=
  mkState (player s) (otherPlayers s) (isHost s) (gameStatus s)
    (currentWord s) (wordList s) (round s) v (revealedIndices s)
    (revealedHintCount s) (roundWinners s) (chatMessages s) (inputValue s).
Definition setRevealedIndices v (s : State) : State :=
  mkState (player s) (otherPlayers s) (isHost s) (gameStatus s)
    (currentWord s) (wordList s) (round s) (timeLeft s) v
    (revealedHintCount s) (roundWinners s) (chatMessages s) (inputValue s).
Definition setRevealedHintCount v (s : State) : State :=
  mkState (player s) (otherPlayers s) (isHost s) (gameStatus s)
    (currentWord s) (wordList s) (round s) (timeLeft s) (revealedIndices s)
    v (roundWinners s) (chatMessages s) (inputValue s).
Definition setRoundWinners v (s : State) : State :=
  mkState (player s) (otherPlayers s) (isHost s) (gameStatus s)
    (currentWord s) (wordList s) (round s) (timeLeft s) (revealedIndices s)
    (revealedHintCount s) v (chatMessages s) (inputValue s).
Definition setChatMessages v (s : State) : State :=
  mkState (player s) (otherPlayers s) (isHost s) (gameStatus s)
    (currentWord s) (wordList s) (round s) (timeLeft s) (revealedIndices s)
    (revealedHintCount s) (roundWinners s) v (inputValue s).
Definition setInputValue v (s : State) : State :=
  mkState (player s) (otherPlayers s) (isHost s) (gameStatus s)
    (currentWord s) (wordList s) (round s) (timeLeft s) (revealedIndices s)
    (revealedHintCount s) (roundWinners s) (chatMessages s) v.

(** ** Effects and handlers *)

(** The function a [setTimeout] will call. *)
Inductive Callback :=
| CallNextRoundHost
| CallNothing.

(** What a handler does besides updating the state. *)
Inductive Effect :=
| broadcastAction (a : Action)
| setTimeout (cb : Callback) (ms : Z).

(** A handler updates the state and emits effects, in order. *)
Definition Handler : Type := State → State * list Effect.

Definition skip : Handler := λ s, (s, []).
Definition update (f : State → State) : Handler := λ s, (f s, []).
Definition emit (e : Effect) : Handler := λ s, (s, [e]).
Definition andThen (h1 h2 : Handler) : Handler := λ s,
  let '(s1, e1) := h1 s in
  let '(s2, e2) := h2 s1 in
  (s2, e1 ++ e2).
Definition when (b : bool) (h : Handler) : Handler := if b then h else skip.

Declare Scope handler_scope.
Delimit Scope handler_scope with H.
Notation "h1 >> h2" := (andThen h1 h2)
  (at level 61, left associativity) : handler_scope.
Local Open Scope handler_scope.

(** ** The environment *)

(** A value of [Math.random()]: the fraction [num / den], in [[0, 1)]. *)
Record Rand := mkRand {
  num : nat;
  den : nat;
  rand_lt_1 : (num < den)%nat
}.

(** [Math.floor(r * n)] *)
Definition floorMul (r : Rand) (n : nat) : nat := (num r * n / den r)%nat.

(** What a handler reads from its environment when it runs: the clock,
    the id string built for a new chat entry ([Date.now().toString()],
    followed by [Math.random()] for system entries), and a random draw. *)
Record Env := mkEnv {
  now : Z;
  freshId : string;
  random : Rand
}.

(** ** Strings *)

Definition showNat (n : nat) : string := NilZero.string_of_uint (Nat.to_uint n).
Definition showZ (z : Z) : string := NilZero.string_of_int (Z.to_int z).

Definition isSpace (a : ascii) : bool :=
  let n := nat_of_ascii a in
  ((9 <=? n) && (n <=? 13) || (n =? 32))%nat.

Fixpoint trimStart (s : string) : string :=
  match s with
  | String a s' => if isSpace a then trimStart s' else s
  | EmptyString => EmptyString
  end.

Fixpoint trimEnd (s : string) : string :=
  match s with
  | String a s' =>
      match trimEnd s' with
      | EmptyString => if isSpace a then EmptyString else String a EmptyString
      | t => String a t
      end
  | EmptyString => EmptyString
  end.

Definition trim (s : string) : string := trimEnd (trimStart s).

Definition upper (a : ascii) : ascii :=
  let n := nat_of_ascii a in
  if ((97 <=? n) && (n <=? 122))%nat then ascii_of_nat (n - 32) else a.

Fixpoint toUpperCase (s : string) : string :=
  match s with
  | String a s' => String (upper a) (toUpperCase s')
  | EmptyString => EmptyString
  end.

(** Text of ASCII characters only.  [String.prototype.trim] also strips
    the white space beyond ASCII (U+00A0, U+FEFF and others) and
    [String.prototype.toUpperCase] also maps the letters beyond ASCII; on
    ASCII text [trim] and [toUpperCase] above are these methods, and
    statements about typed text are made for such text. *)
Definition isAscii (s : string) : Prop :=
  Forall (λ a, (nat_of_ascii a < 128)%nat) (list_ascii_of_string s).

(** ** Host logic *)

(** [addSystemMessage(text)] *)
Definition addSystemMessage (env : Env) (text : string) : Handler :=
  update (λ s, setChatMessages
    (chatMessages s ++
       [mkChat (freshId env) "system" "System" text system (now env)]) s).

(** [startRoundHost(word, roundNum, list)].  The word is [None] when the
    caller passes [undefined] (an index outside the word list). *)
Definition startRoundHost (env : Env) (w : option WordData) (roundNum : nat)
    (list : list WordData) : Handler :=
  update (setCurrentWord w) >>
  update (setTimeLeft ROUND_TIME) >>
  update (setRevealedIndices []) >>
  update (setRevealedHintCount 1) >>
  update (setGameStatus PLAYING) >>
  update (setRoundWinners []) >>
  addSystemMessage env ("Round " +:+ showNat roundNum +:+ " started!") >>
  emit (broadcastAction (SYNC_STATE
    (mkSync (Some PLAYING) w (Some ROUND_TIME) (Some roundNum)
            (Some []) (Some 1%nat) (Some (length list))))).

Definition statusOnly (st : GameStatus) : SyncState :=
  mkSync (Some st) None None None None None None.

(** [nextRoundHost()]; [cl] is the state its closure was created in.
    Stopping the interval is not an effect of the model: the timer only
    fires while the host is [PLAYING] (see [timerFires]). *)
Definition nextRoundHost (cl : State) (env : Env) : Handler :=
  match wordList cl with
  | [] => skip
  | _ =>
      if (length (wordList cl) <=? round cl)%nat then
        update (setGameStatus GAME_OVER) >>
        emit (broadcastAction (SYNC_STATE (statusOnly GAME_OVER))) >>
        addSystemMessage env "Game Over! Thanks for playing."
      else
        let nextRoundNum := (round cl + 1)%nat in
        update (setRound nextRoundNum) >>
        startRoundHost env (wordList cl !! (nextRoundNum - 1)%nat)
          nextRoundNum (wordList cl)
  end.

(** [startGameAsHost()], given the list [generateWords(5)] resolved to. *)
Definition startGameAsHost (cl : State) (env : Env) (words : list WordData)
    : Handler :=
  if negb (isHost cl) then skip
  else
    update (setWordList words) >> update (setRound 1) >>
    startRoundHost env (words !! 0%nat) 1 words.

(** The letter positions a hint step may reveal:
    [indices.filter(i => !revealedIndices.includes(i) && word[i] !== ' ')] *)
Definition available (w : WordData) (revealed : list nat) : list nat :=
  filter (λ i, (i ∉ revealed) ∧ String.get i (word w) ≠ Some " "%char)
         (seq 0 (String.length (word w))).

(** [handleGameTickHost(currentTime)]: one hint reveal step. *)
Definition handleGameTickHost (cl : State) (env : Env) : Handler :=
  match currentWord cl with
  | None => skip
  | Some w =>
      let avail := available w (revealedIndices cl) in
      let newIndices :=
        match avail with
        | [] => revealedIndices cl
        | _ =>
            match avail !! floorMul (random env) (length avail) with
            | Some randomIdx => revealedIndices cl ++ [randomIdx]
            | None => revealedIndices cl
            end
        end in
      let newHintCount :=
        Nat.min (revealedHintCount cl + 1) (length (hints w)) in
      update (setRevealedIndices newIndices) >>
      update (setRevealedHintCount newHintCount) >>
      emit (broadcastAction (SYNC_HINT_UPDATE newIndices newHintCount))
  end.

(** [handleTimeOutHost()] *)
Definition handleTimeOutHost (cl : State) (env : Env) : Handler :=
  update (setGameStatus ROUND_OVER) >>
  emit (broadcastAction (SYNC_STATE (statusOnly ROUND_OVER))) >>
  addSystemMessage env
    ("Time's up! The word was " +:+
     from_option word "undefined" (currentWord cl) +:+ ".") >>
  emit (setTimeout CallNextRoundHost 4000).

(** The interval callback: [setTimeLeft(prev => ...)]. *)
Definition tick (cl : State) (env : Env) : Handler := λ s,
  let prev := timeLeft s in
  if prev <=? 1 then
    (handleTimeOutHost cl env >> update (setTimeLeft 0)) s
  else
    let nextTime := prev - 1 in
    (when ((Z.rem nextTime HINT_INTERVAL =? 0)
           && negb (nextTime =? ROUND_TIME) && (0 <? nextTime))
          (handleGameTickHost cl env) >>
     emit (broadcastAction (SYNC_TIME nextTime)) >>
     update (setTimeLeft nextTime)) s.

(** One second passes.  The host timer effect keeps an interval only
    while [isHost && gameStatus === PLAYING]; it is set up again whenever
    the state its callback reads changes, so the callback's closure is the
    current state. *)
Definition timerFires (env : Env) : Handler := λ s,
  if isHost s && bool_decide (gameStatus s = PLAYING) then tick s env s
  else (s, []).

(** ** Guessing *)

(** [calculateScore()] *)
Definition calculateScore (cl : State) : Z := timeLeft cl * 15 + 100.

Definition withScore (p : Player) (newScore : Z) : Player :=
  mkPlayer (p_id p) (p_name p) newScore (p_isSelf p) (p_avatarColor p).

Definition hasPlayer (i : string) (ps : list Player) : bool :=
  bool_decide (Exists (λ p, p_id p = i) ps).

(** [handleGuess(e)] *)
Definition handleGuess (cl : State) (env : Env) : Handler :=
  let text := trim (inputValue cl) in
  match player cl, currentWord cl with
  | Some me, Some w =>
      if String.eqb text "" || negb (bool_decide (gameStatus cl = PLAYING))
      then skip
      else
        let guess := toUpperCase text in
        if String.eqb guess (word w) then
          let points := calculateScore cl in
          let newScore := p_score me + points in
          let msg := mkChat (freshId env) (p_id me) (p_name me) text
                            guess_correct (now env) in
          update (setPlayer (Some (withScore me newScore))) >>
          update (setInputValue "") >>
          update (λ s, setChatMessages (chatMessages s ++ [msg]) s) >>
          emit (broadcastAction
                  (PLAYER_SCORED (p_id me) newScore points (p_name me))) >>
          emit (broadcastAction (CHAT msg)) >>
          update (λ s, if hasPlayer (p_id me) (roundWinners s) then s
                       else setRoundWinners
                              (roundWinners s ++ [withScore me newScore]) s)
        else
          let msg := mkChat (freshId env) (p_id me) (p_name me) text
                            chat (now env) in
          update (λ s, setChatMessages (chatMessages s ++ [msg]) s) >>
          emit (broadcastAction (CHAT msg)) >>
          update (setInputValue "")
  | _, _ => skip
  end.

(** ** Socket listeners *)

Definition hasMessage (i : string) (ms : list ChatMessage) : bool :=
  bool_decide (Exists (λ m, m_id m = i) ms).

(** [case 'CHAT'] *)
Definition applyChat (data : ChatMessage) (prev : list ChatMessage)
    : list ChatMessage :=
  if hasMessage (m_id data) prev then prev else prev ++ [data].

(** How often the id [i] occurs in a chat log. *)
Definition occurrences (i : string) (log : list ChatMessage) : nat :=
  length (filter (λ m, m_id m = i) log).

(** [case 'SYNC_STATE'].  A number used as a condition is falsy when 0. *)
Definition applySyncState (env : Env) (data : SyncState) : Handler :=
  from_option (λ v, update (setGameStatus v)) skip (ss_status data) >>
  from_option (λ v, update (setCurrentWord (Some v))) skip
    (ss_currentWord data) >>
  from_option (λ v, update (setTimeLeft v)) skip (ss_timeLeft data) >>
  from_option (λ v, when (negb (v =? 0)%nat) (update (setRound v))) skip
    (ss_round data) >>
  from_option (λ v, update (setRevealedIndices v)) skip
    (ss_revealedIndices data) >>
  from_option (λ v, when (negb (v =? 0)%nat) (update (setRevealedHintCount v)))
    skip (ss_revealedHintCount data) >>
  when (bool_decide (ss_status data = Some PLAYING))
    (update (setRoundWinners []) >>
     addSystemMessage env
       ("Round " +:+ from_option showNat "undefined" (ss_round data)
        +:+ " started!")).

Definition findPlayer (i : string) (ps : list Player) : option Player :=
  snd <$> list_find (λ p, p_id p = i) ps.

(** [case 'PLAYER_SCORED']; [others0] is the [otherPlayers] array the
    listener closed over when it was registered, [isHostRef] the ref it
    reads. *)
Definition applyPlayerScored (others0 : list Player) (isHostRef : bool)
    (env : Env) (playerId : string) (score points : Z) (playerName : string)
    : Handler :=
  update (λ s, setOtherPlayers
    ((λ p, if bool_decide (p_id p = playerId) then withScore p score else p)
       <$> otherPlayers s) s) >>
  addSystemMessage env
    (playerName +:+ " guessed the word! (+" +:+ showZ points +:+ ")") >>
  update (λ s,
    let prev := roundWinners s in
    if hasPlayer playerId prev then s
    else
      match findPlayer playerId prev, findPlayer playerId others0 with
      | Some existing, _ | None, Some existing =>
          setRoundWinners (prev ++ [withScore existing score]) s
      | None, None =>
          setRoundWinners
            (prev ++ [mkPlayer playerId playerName score false "bg-gray-500"])
            s
      end) >>
  update (setGameStatus ROUND_OVER) >>
  when isHostRef (emit (setTimeout CallNothing 3000)).

(** The [GAME_ACTION] listener registered once, when the component mounts. *)
Definition gameActionListener (others0 : list Player) (isHostRef : bool)
    (env : Env) (a : Action) : Handler :=
  match a with
  | SYNC_STATE data => applySyncState env data
  | SYNC_TIME t => update (setTimeLeft t)
  | SYNC_HINT_UPDATE indices count =>
      update (setRevealedIndices indices) >>
      when (negb (count =? 0)%nat) (update (setRevealedHintCount count))
  | CHAT data =>
      update (λ s, setChatMessages (applyChat data (chatMessages s)) s)
  | PLAYER_SCORED playerId score points playerName =>
      applyPlayerScored others0 isHostRef env playerId score points playerName
  end.

(** The second [GAME_ACTION] listener, registered only while [isHost]. *)
Definition hostScoredListener (a : Action) : Handler :=
  match a with
  | PLAYER_SCORED _ _ _ _ =>
      update (setGameStatus ROUND_OVER) >>
      emit (broadcastAction (SYNC_STATE (statusOnly ROUND_OVER))) >>
      emit (setTimeout CallNextRoundHost 3000)
  | _ => skip
  end.

(** A [GAME_ACTION] envelope arrives: the listeners run in the order they
    were registered. *)
Definition onGameAction (others0 : list Player) (env : Env) (a : Action)
    : Handler := λ s,
  (gameActionListener others0 (isHost s) env a >>
   when (isHost s) (hostScoredListener a)) s.

(** ** What happens at the host during a round *)

Inductive HostEvent :=
| TimerFires (env : Env)
| Guess (env : Env)
| Typing (text : string)
| Receive (others0 : list Player) (env : Env) (a : Action).

Definition hostStep (s : State) (e : HostEvent) : State * list Effect :=
  match e with
  | TimerFires env => timerFires env s
  | Guess env => handleGuess s env s
  | Typing text => update (setInputValue text) s
  | Receive others0 env a => onGameAction others0 env a s
  end.

Fixpoint hostRun (s : State) (es : list HostEvent) : State :=
  match es with
  | [] => s
  | e :: es => hostRun (hostStep s e).1 es
  end.

(** The events a host meets inside a round: everything but the
    snapshots, which only a host sends. *)
Definition inRound (e : HostEvent) : Prop :=
  match e with
  | Receive _ _ (SYNC_STATE _ | SYNC_TIME _ | SYNC_HINT_UPDATE _ _) => False
  | _ => True
  end.

(** Classifying effects. *)
Definition isSyncTime (e : Effect) : bool :=
  match e with broadcastAction (SYNC_TIME _) => true | _ => false end.

Definition isSyncState (e : Effect) : bool :=
  match e with broadcastAction (SYNC_STATE _) => true | _ => false end.

Definition isTimeout (e : Effect) : bool :=
  match e with setTimeout _ _ => true | _ => false end.

(** [i] is a letter position of [w] that is not a space. *)
Definition letterIndex (w : WordData) (i : nat) : Prop :=
  (i < String.length (word w))%nat ∧ String.get i (word w) ≠ Some " "%char.

(** [s'] has the current word and the reveal state of [s]. *)
Definition sameReveal (s s' : State) : Prop :=
  currentWord s' = currentWord s ∧
  revealedIndices s' = revealedIndices s ∧
  revealedHintCount s' = revealedHintCount s.

End App.

(* ===================================================================== *)
(** * mockSocket.ts: the client's socket service *)
(* ===================================================================== *)

Module Socket.

(** A listener function; the service compares listeners by identity. *)
Definition Listener := nat.

(** The fields of [SocketService].  [ws] names the [WebSocket] object; a
    queued or sent message is the envelope before [JSON.stringify]. *)
Record Service := mkService {
  ws : option nat;
  listeners : gmap string (list Listener);
  isConnected : bool;
  messageQueue : list Relay.ClientMsg
}.

Definition fresh : Service := mkService None ∅ false [].

(** What the service does to the outside: a [ws.send], or a call of a
    listener with the payload ([None] for the [null] of ['disconnect']). *)
Inductive Output :=
| wsSend (w : nat) (m : Relay.ClientMsg)
| call (cb : Listener) (data : option Relay.ServerMsg).

(** [connect(url)]: [this.ws = new WebSocket(host)]. *)
Definition connect (w : nat) (s : Service) : Service :=
  mkService (Some w) (listeners s) (isConnected s) (messageQueue s).

(** [sendRaw(type, payload)] *)
Definition sendRaw (m : Relay.ClientMsg) (s : Service)
    : Service * list Output :=
  match isConnected s, ws s with
  | true, Some w => (s, [wsSend w m])
  | _, _ =>
      (mkService (ws s) (listeners s) (isConnected s) (messageQueue s ++ [m]),
       [])
  end.

(** [flushQueue()]: the queue is shifted empty, every message sent. *)
Definition flushQueue (s : Service) : Service * list Output :=
  match ws s with
  | None => (s, [])
  | Some w =>
      (mkService (ws s) (listeners s) (isConnected s) [],
       wsSend w <$> messageQueue s)
  end.

(** [emit(event, data)] *)
Definition emit (event : string) (data : option Relay.ServerMsg)
    (s : Service) : list Output :=
  (λ cb, call cb data) <$> default [] (listeners s !! event).

(** [ws.onopen] *)
Definition onopen (s : Service) : Service * list Output :=
  flushQueue (mkService (ws s) (listeners s) true (messageQueue s)).

(** [ws.onclose] *)
Definition onclose (s : Service) : Service * list Output :=
  let s' := mkService (ws s) (listeners s) false (messageQueue s) in
  (s', emit "disconnect" None s').

(** The [type] field of an envelope of the relay. *)
Definition typeOf (m : Relay.ServerMsg) : string :=
  match m with
  | Relay.ROOM_JOINED _ _ => "ROOM_JOINED"
  | Relay.PLAYER_JOINED _ => "PLAYER_JOINED"
  | Relay.PLAYER_LEFT _ => "PLAYER_LEFT"
  | Relay.BECAME_HOST => "BECAME_HOST"
  | Relay.GAME_ACTION _ => "GAME_ACTION"
  end.

(** [ws.onmessage]; [None] is data [JSON.parse] rejects. *)
Definition onmessage (raw : option Relay.ServerMsg) (s : Service)
    : list Output :=
  match raw with
  | Some m => emit (typeOf m) (Some m) s
  | None => []
  end.

(** [on(event, callback)] *)
Definition on (event : string) (cb : Listener) (s : Service) : Service :=
  mkService (ws s)
    (<[event := default [] (listeners s !! event) ++ [cb]]> (listeners s))
    (isConnected s) (messageQueue s).

(** The cleanup function [on] returns. *)
Definition unsubscribe (event : string) (cb : Listener) (s : Service)
    : Service :=
  match listeners s !! event with
  | Some callbacks =>
      mkService (ws s)
        (<[event := filter (λ cb', cb' ≠ cb) callbacks]> (listeners s))
        (isConnected s) (messageQueue s)
  | None => s
  end.

(** [joinRoom(roomId, player)] and [broadcastAction(type, data)] *)
Definition joinRoom (roomId : string) (player : Player) :=
  sendRaw (Relay.JOIN_ROOM roomId player).
Definition broadcastAction (a : Action) :=
  sendRaw (Relay.GAME_ACTION_req a).

(** Several [sendRaw] calls in a row. *)
Fixpoint sendAllRaw (ms : list Relay.ClientMsg) (s : Service)
    : Service * list Output :=
  match ms with
  | [] => (s, [])
  | m :: ms =>
      let '(s1, o1) := sendRaw m s in
      let '(s2, o2) := sendAllRaw ms s1 in
      (s2, o1 ++ o2)
  end.

End Socket.

(* ===================================================================== *)
(** * App.tsx: room listeners, round progression, delivery to clients *)
(* ===================================================================== *)

Module Client.
Import App.
Local Open Scope handler_scope.

(** The listener of ['ROOM_JOINED']; [playerRef.current] is the player. *)
Definition onRoomJoined (env : Env) (isHostNow : bool) (members : list Player)
    : Handler :=
  update (setIsHost isHostNow) >>
  update (λ s, setOtherPlayers
    (filter (λ p, Some (p_id p) ≠ p_id <$> player s) members) s) >>
  update (setGameStatus LOBBY) >>
  addSystemMessage env
    (if isHostNow then "You are the Host! Start the game when ready."
     else "Joined room. Waiting for host...").

(** The listener of ['PLAYER_JOINED'] *)
Definition onPlayerJoined (env : Env) (p : Player) : Handler :=
  update (λ s, setOtherPlayers (otherPlayers s ++ [p]) s) >>
  addSystemMessage env (p_name p +:+ " joined the game.").

(** The listener of ['PLAYER_LEFT'] *)
Definition onPlayerLeft (id : option string) : Handler :=
  update (λ s, setOtherPlayers
    (filter (λ p, Some (p_id p) ≠ id) (otherPlayers s)) s).

(** The listener of ['BECAME_HOST'] *)
Definition onBecameHost (env : Env) : Handler :=
  update (setIsHost true) >>
  addSystemMessage env "The host left. You are now the Host!".

(** An envelope of the relay reaches the component. *)
Definition onServerMsg (others0 : list Player) (env : Env)
    (m : Relay.ServerMsg) : Handler :=
  match m with
  | Relay.ROOM_JOINED isHostNow members => onRoomJoined env isHostNow members
  | Relay.PLAYER_JOINED p => onPlayerJoined env p
  | Relay.PLAYER_LEFT id => onPlayerLeft id
  | Relay.BECAME_HOST => onBecameHost env
  | Relay.GAME_ACTION a => onGameAction others0 env a
  end.

(** What a participant that never starts a game can meet. *)
Inductive Event :=
| Base (e : HostEvent)
| FromRelay (others0 : list Player) (env : Env) (m : Relay.ServerMsg)
| TimeoutDue (cl : State) (env : Env).

(** A due [setTimeout(nextRoundHost)] runs [nextRoundHost] with the state
    [cl] its closure was created in. *)
Definition step (s : State) (e : Event) : State * list Effect :=
  match e with
  | Base e => hostStep s e
  | FromRelay others0 env m => onServerMsg others0 env m s
  | TimeoutDue cl env => nextRoundHost cl env s
  end.

Fixpoint run (s : State) (es : list Event) : State :=
  match es with
  | [] => s
  | e :: es => run (step s e).1 es
  end.

(** The broadcasts among the effects of a handler, as a client's
    [GAME_ACTION] listeners apply them, in order. *)
Definition deliver (others0 : list Player) (env : Env) (effs : list Effect)
    (c : State) : State :=
  foldl (λ c e, match e with
                | broadcastAction a => (onGameAction others0 env a c).1
                | setTimeout _ _ => c
                end) c effs.

(** The round state a snapshot carries. *)
Definition roundView (s : State)
    : GameStatus * option WordData * Z * nat * list nat * nat :=
  (gameStatus s, currentWord s, timeLeft s, round s, revealedIndices s,
   revealedHintCount s).

(** The host plays rounds, one entry per round.  In a round the events
    [r.1] happen up to the moment a handler sets the timeout for
    [nextRoundHost]: the closure of that [nextRoundHost] is the state of
    that moment.  The events [r.2] happen until the timeout is due; then
    [nextRoundHost] runs, with that closure, on the state it meets. *)
Fixpoint play (env : Env) (rounds : list (list HostEvent * list HostEvent))
    (s : State) : State :=
  match rounds with
  | [] => s
  | r :: rounds =>
      let cl := hostRun s r.1 in
      let due := hostRun cl r.2 in
      play env rounds (nextRoundHost cl env due).1
  end.

(** How many hint steps a round has had when [t] seconds remain. *)
Definition hintStepsBy (t : Z) : nat :=
  if t <=? 15 then 3 else if t <=? 30 then 2 else if t <=? 45 then 1 else 0.

(** The winners after a step: as before, none, or one more with a new id. *)
Definition winnersStep (s s' : State) : Prop :=
  roundWinners s' = roundWinners s ∨ roundWinners s' = [] ∨
  ∃ p, roundWinners s' = roundWinners s ++ [p] ∧
       (p_id p ∉ p_id <$> roundWinners s).

End Client.

(* ===================================================================== *)
(** * WordDisplay.tsx and Lobby.tsx: what the player sees and enters *)
(* ===================================================================== *)

Module View.

(** One position of the board: a gap for a space, the letter, or [_]. *)
Inductive Slot :=
| Gap
| Shown (letter : ascii)
| Blank.

(** [status === 'ROUND_OVER' || status === 'GAME_OVER'] *)
Definition isGameOver (status : GameStatus) : bool :=
  bool_decide (status = ROUND_OVER) || bool_decide (status = GAME_OVER).

(** The word slots: [letters.map((letter, index) => ...)] *)
Definition slots (w : WordData) (revealedIndices : list nat)
    (status : GameStatus) : list Slot :=
  imap (λ index letter,
          let isRevealed :=
            bool_decide (index ∈ revealedIndices) || isGameOver status in
          if bool_decide (letter = " "%char) then Gap
          else if isRevealed then Shown letter else Blank)
       (list_ascii_of_string (word w)).

(** The hint lines: each hint with its [isVisible] flag and the text shown. *)
Definition hintLines (w : WordData) (revealedHintCount : nat)
    (status : GameStatus) : list (bool * string) :=
  imap (λ index hint,
          let isVisible :=
            (index <? revealedHintCount)%nat || isGameOver status in
          (isVisible, if isVisible then hint else "Locked hint..."))
       (hints w).

(** [Lobby.handleSubmit]: the arguments of [onJoin], if it is called. *)
Definition handleSubmit (name roomId : string) : option (string * string) :=
  if negb (String.eqb (App.trim name) "")
     && negb (String.eqb (App.trim roomId) "")
  then Some (App.trim name, App.trim roomId)
  else None.

End View.

(* ===================================================================== *)
(** * Sample data *)
(* ===================================================================== *)

(** ** A two-player room *)

Definition ann : Player := mkPlayer "p1" "Ann" 0 true "bg-red-500".
Definition bob : Player := mkPlayer "p2" "Bob" 0 true "bg-blue-500".

Definition allOpen : Relay.Conn → bool := λ _, true.

Definition annMember : Relay.Member := Relay.mkMember ann 0%nat.
Definition bobMember : Relay.Member := Relay.mkMember bob 1%nat.

(** Ann opens room ABC on socket 0, Bob joins it on socket 1. *)
Definition joinABC : list ((Relay.Conn → bool) * Relay.Event) :=
  [(allOpen, Relay.Message 0%nat (Relay.JOIN_ROOM "ABC" ann));
   (allOpen, Relay.Message 1%nat (Relay.JOIN_ROOM "ABC" bob))].

Definition roomABC : Relay.Server := Relay.run Relay.init joinABC.

(** ** A host in its first round *)

Definition half : App.Rand := App.mkRand 1 2 (le_n 2).

Definition env0 : App.Env := App.mkEnv 1700000000000 "1700000000000" half.

Definition firstFive : list WordData := take 5 Gemini.GIANT_WORD_LIST.

Definition banana : WordData :=
  mkWord "BANANA"
    ["I am a fruit"; "I am yellow and curved"; "Monkeys love to eat me"] easy.

(** Ann has joined as host and started a game with five catalog words. *)
Definition hostLobby : App.State :=
  App.setIsHost true (App.setPlayer (Some ann) App.initial).

Definition hostRound1 : App.State :=
  (App.startGameAsHost hostLobby env0 firstFive hostLobby).1.

(** Ann types the answer 18 seconds into the round. *)
Definition hostAboutToGuess : App.State :=
  App.hostRun hostRound1
    (replicate 18 (App.TimerFires env0) ++ [App.Typing " banana "]).

(** 59 seconds into the round. *)
Definition hostLastSecond : App.State :=
  App.hostRun hostRound1 (replicate 59 (App.TimerFires env0)).

(** A two-letter word: both letters are revealed after two hint steps. *)
Definition ox : WordData :=
  mkWord "OX" ["I am an animal"; "I pull a plough"; "I rhyme with fox"] medium.

(** 44 seconds into a round on [ox]: the third hint step is due. *)
Definition hostAllRevealed : App.State :=
  App.hostRun (App.startRoundHost env0 (Some ox) 1 [ox] hostLobby).1
    (replicate 44 (App.TimerFires env0)).

(** ** More rooms and participants *)

(** Ann alone in room ABC. *)
Definition joinAnn : list ((Relay.Conn → bool) * Relay.Event) :=
  [(allOpen, Relay.Message 0%nat (Relay.JOIN_ROOM "ABC" ann))].

Definition roomAnn : Relay.Server := Relay.run Relay.init joinAnn.

(** Ann in the room with the empty code. *)
Definition roomNoCode : Relay.Server :=
  Relay.run Relay.init
    [(allOpen, Relay.Message 0%nat (Relay.JOIN_ROOM "" ann))].

(** Bob under a new name. *)
Definition bobby : Player := mkPlayer "p2" "Bobby" 70 true "bg-green-500".

(** Bob's component: he has joined and lists Ann. *)
Definition bobClient : App.State :=
  App.setOtherPlayers [ann] (App.setPlayer (Some bob) App.initial).

(** Bob after the snapshot that starts Ann's first round. *)
Definition bobRound1 : App.State :=
  Client.deliver [] env0
    (App.startGameAsHost hostLobby env0 firstFive hostLobby).2 bobClient.

(** Ann's fifth and last round. *)
Definition hostRound5 : App.State :=
  Client.play env0 (replicate 4 ([], [])) hostRound1.

(** Two rounds of Ann's game: the first runs out (the timeout is set in
    the sixtieth tick), the second ends when Bob's score arrives after
    ten seconds. *)
Definition twoRounds : list (list App.HostEvent * list App.HostEvent) :=
  [(replicate 59 (App.TimerFires env0), [App.TimerFires env0]);
   (replicate 10 (App.TimerFires env0),
    [App.Receive [] env0 (PLAYER_SCORED "p2" 850 850 "Bob")])].

(** Five rounds that all run out. *)
Definition fiveRounds : list (list App.HostEvent * list App.HostEvent) :=
  replicate 5 (replicate 59 (App.TimerFires env0), [App.TimerFires env0]).

(** A word the source delivered without hints. *)
Definition hintless : WordData := mkWord "MUTE" [] easy.

(** Ann has guessed her word. *)
Definition annHasGuessed : App.State :=
  (App.handleGuess hostAboutToGuess env0 hostAboutToGuess).1.

(** Ann submits the word a second time, then Bob's score arrives
    twice. *)
Definition moreScores : list Client.Event :=
  [Client.Base (App.Typing "banana");
   Client.Base (App.Guess env0);
   Client.FromRelay [] env0
     (Relay.GAME_ACTION (PLAYER_SCORED "p2" 700 700 "Bob"));
   Client.FromRelay [] env0
     (Relay.GAME_ACTION (PLAYER_SCORED "p2" 1400 700 "Bob"))].

(** Bob is told he is the host, his clock ticks, a round advancement
    scheduled in his first round is due. *)
Definition bobPromoted : list Client.Event :=
  [Client.FromRelay [] env0 Relay.BECAME_HOST;
   Client.Base (App.TimerFires env0);
   Client.TimeoutDue bobRound1 env0].

(** A service with a socket that is not open yet. *)
Definition connecting : Socket.Service := Socket.connect 7 Socket.fresh.

Definition firstMessages : list Relay.ClientMsg :=
  [Relay.JOIN_ROOM "ABC" ann; Relay.GAME_ACTION_req (SYNC_TIME 59)].

(* ===================================================================== *)
(** * The registry: host invariant and host migration *)
(* ===================================================================== *)

Section RelayFacts.
Import Relay.

Lemma others_ids_sublist leaving ps :
  mem_id <$> others leaving ps `sublist_of` mem_id <$> ps.
Proof. apply fmap_sublist, sublist_filter. Qed.

Lemma elem_of_others_ids leaving ps i :
  i ∈ mem_id <$> ps → Some i ≠ leaving → i ∈ mem_id <$> others leaving ps.
Proof.
  intros [m [-> Hm]]%list_elem_of_fmap Hne.
  apply list_elem_of_fmap. exists m. split; [done|].
  unfold others. apply list_elem_of_filter. done.
Qed.

Lemma reconnect_ids c player (ps : list Member) i m :
  ps !! i = Some m →
  mem_id <$> <[i := reconnect c player m]> ps = mem_id <$> ps.
Proof.
  intros Hi. rewrite list_fmap_insert.
  apply list_insert_id. by rewrite list_lookup_fmap, Hi.
Qed.

Lemma joined_ids c player (ps : list Member) :
  NoDup (mem_id <$> ps) →
  let ps' := match list_find (λ p, mem_id p = p_id player) ps with
             | Some (i, m) => <[i := reconnect c player m]> ps
             | None => ps ++ [mkMember player c]
             end in
  NoDup (mem_id <$> ps') ∧ p_id player ∈ mem_id <$> ps' ∧
  ∀ i, i ∈ mem_id <$> ps → i ∈ mem_id <$> ps'.
Proof.
  intros Hnd. simpl.
  destruct (list_find _ ps) as [[i m]|] eqn:Hfind.
  - apply list_find_Some in Hfind as (Hi & Hid & _).
    rewrite (reconnect_ids _ _ _ _ _ Hi). split_and!; [done| |done].
    apply list_elem_of_fmap. exists m. split; [done|].
    by eapply list_elem_of_lookup_2.
  - apply list_find_None in Hfind.
    rewrite fmap_app. simpl. split_and!.
    + apply NoDup_app. split_and!; [done| |apply NoDup_singleton].
      intros x [m [Hx Hm]]%list_elem_of_fmap Hx'%list_elem_of_singleton.
      rewrite Forall_forall in Hfind. apply (Hfind m Hm). by rewrite <- Hx, Hx'.
    + apply elem_of_app. right. by apply list_elem_of_singleton.
    + intros x Hx. apply elem_of_app. by left.
Qed.

(** A join keeps the members in the order they joined: a reconnect
    updates its entry in place, a new member goes to the end. *)
Lemma joinRoom_order isOpen st c roomId player old :
  rooms st !! roomId = Some old →
  ∃ new, rooms (joinRoom isOpen st c roomId player).1 !! roomId = Some new ∧
         hostId new = hostId old ∧
         (mem_id <$> players new = mem_id <$> players old ∨
          mem_id <$> players new = (mem_id <$> players old) ++ [p_id player]).
Proof.
  intros Hold. unfold joinRoom. simpl. rewrite Hold, lookup_insert_eq.
  eexists. split; [reflexivity|]. split; [done|]. simpl.
  destruct (list_find _ (players old)) as [[i m]|] eqn:Hfind.
  - left. apply list_find_Some in Hfind as (Hi & _ & _).
    by apply reconnect_ids.
  - right. by rewrite fmap_app.
Qed.

Lemma joinRoom_ok isOpen st c roomId player :
  registry_ok st → registry_ok (joinRoom isOpen st c roomId player).1.
Proof.
  intros Hok r room. unfold joinRoom. simpl.
  destruct (decide (roomId = r)) as [->|Hne].
  2:{ rewrite lookup_insert_ne by done. apply Hok. }
  rewrite lookup_insert_eq. intros [= <-]. unfold room_ok. simpl.
  destruct (rooms st !! r) as [old|] eqn:Hold.
  - destruct (Hok _ _ Hold) as [Hnd Hhost].
    destruct (joined_ids c player (players old) Hnd) as (Hnd' & _ & Hmono).
    split; [done|by apply Hmono].
  - destruct (joined_ids c player [] (NoDup_nil_2)) as (Hnd' & Hin & _).
    done.
Qed.

Lemma onClose_ok isOpen st c :
  registry_ok st → registry_ok (onClose isOpen st c).1.
Proof.
  intros Hok. unfold onClose.
  destruct (truthy _); [|done].
  destruct (currentRoomId (vars st c)) as [roomId|]; [|done]. simpl.
  destruct (rooms st !! roomId) as [room|] eqn:Hroom; [|done].
  destruct (Hok _ _ Hroom) as [Hnd Hhost].
  pose proof (others_ids_sublist (currentPlayerId (vars st c)) (players room))
    as Hsub.
  pose proof (sublist_NoDup _ _ Hnd Hsub) as Hnd'.
  destruct (others _ (players room)) as [|newHost rest] eqn:Hps.
  - intros r room'. simpl. intros [_ Hr]%lookup_delete_Some. by eapply Hok.
  - assert (hostId room ∈ mem_id <$> newHost :: rest
            ∨ Some (hostId room) = currentPlayerId (vars st c)) as Hkeep.
    { destruct (decide (Some (hostId room) = currentPlayerId (vars st c)));
        [by right|left].
      rewrite <- Hps. by apply elem_of_others_ids. }
    case_bool_decide as Hleft; intros r room'; simpl;
      (destruct (decide (roomId = r)) as [->|Hne];
       [rewrite lookup_insert_eq; intros [= <-]
       |rewrite lookup_insert_ne by done; apply Hok]);
      (split; [done|]).
    + apply list_elem_of_here.
    + by destruct Hkeep.
Qed.

Lemma step_ok isOpen st e : registry_ok st → registry_ok (step isOpen st e).1.
Proof.
  destruct e as [c [roomId player|payload]|c].
  - exact (joinRoom_ok isOpen st c roomId player).
  - done.
  - exact (onClose_ok isOpen st c).
Qed.

Lemma init_ok : registry_ok init.
Proof. intros r room. unfold init. simpl. by rewrite lookup_empty. Qed.

Lemma reachable_ok st : reachable st → registry_ok st.
Proof. induction 1; [apply init_ok|by apply step_ok]. Qed.

Lemma run_reachable tr st : reachable st → reachable (run st tr).
Proof.
  revert st. induction tr as [|[isOpen e] tr IH]; intros st Hst; simpl.
  - done.
  - apply IH. by constructor.
Qed.

(** With distinct ids, exactly one member carries an id that occurs. *)
Lemma one_member_with_id (ps : list Member) i :
  NoDup (mem_id <$> ps) → i ∈ mem_id <$> ps →
  length (filter (λ p, mem_id p = i) ps) = 1%nat.
Proof.
  induction ps as [|p ps IH]; simpl; intros Hnd Hin.
  - by apply elem_of_nil in Hin.
  - apply NoDup_cons in Hnd as [Hp Hnd].
    rewrite filter_cons. case_decide as Hid.
    + simpl. f_equal. destruct (filter _ ps) as [|q qs] eqn:Hf; [done|].
      exfalso. apply Hp. subst i.
      assert (q ∈ filter (λ p0, mem_id p0 = mem_id p) ps) as Hq
        by (rewrite Hf; apply list_elem_of_here).
      apply list_elem_of_filter in Hq as [Hq1 Hq2].
      rewrite <- Hq1. apply list_elem_of_fmap. by exists q.
    + apply IH; [done|].
      apply elem_of_cons in Hin as [Hin|Hin]; [by subst i|done].
Qed.

(** C3. In every registry state reached by running JOIN_ROOM, GAME_ACTION
    and close events from the empty registry, every room that is present
    is non-empty, its member ids are pairwise distinct, and exactly one
    member carries the room's [hostId]. *)
Theorem registry_host_invariant tr r room :
  rooms (run init tr) !! r = Some room →
  players room ≠ [] ∧
  NoDup (mem_id <$> players room) ∧
  length (filter (λ p, mem_id p = hostId room) (players room)) = 1%nat.
Proof.
  intros Hr.
  destruct (reachable_ok _ (run_reachable tr _ reach_init) _ _ Hr)
    as [Hnd Hhost].
  split_and!; [|done|by apply one_member_with_id].
  intros Hnil. rewrite Hnil in Hhost. by apply elem_of_nil in Hhost.
Qed.

Lemma truthy_Some s : s ≠ "" → truthy (Some s) = true.
Proof.
  intros Hs. simpl. destruct (String.eqb_spec s ""); [done|done].
Qed.

Lemma sendAll_no_BECAME_HOST isOpen ps msg ex :
  msg ≠ BECAME_HOST →
  filter (λ s, isBecameHost s) (sendAll isOpen ps msg ex) = [].
Proof.
  intros Hmsg. unfold sendAll.
  induction (filter _ ps) as [|p l IH]; [done|].
  rewrite fmap_cons, filter_cons_False; [done|].
  unfold isBecameHost. simpl. destruct msg; simpl; try (intros []); congruence.
Qed.

(** C4 (as amended). When the connection that closes belongs to the room's
    host and other members remain, the first remaining member becomes the
    host, [hostId] is set to its id, and [BECAME_HOST] is sent to that
    member's socket alone, provided that socket is open; when it is not
    open, no [BECAME_HOST] is sent at all. *)
Theorem host_migration isOpen st c roomId pid room newHost rest :
  currentRoomId (vars st c) = Some roomId → roomId ≠ "" →
  currentPlayerId (vars st c) = Some pid →
  rooms st !! roomId = Some room →
  hostId room = pid →
  others (Some pid) (players room) = newHost :: rest →
  rooms (onClose isOpen st c).1 !! roomId
    = Some (mkRoom (newHost :: rest) (mem_id newHost)) ∧
  filter (λ s, isBecameHost s) (onClose isOpen st c).2
    = if isOpen (ws newHost) then [(ws newHost, BECAME_HOST)] else [].
Proof.
  intros Hroom Hne Hpid Hlook Hhost Hrest. unfold onClose.
  rewrite Hroom, Hpid, (truthy_Some _ Hne). simpl.
  rewrite Hlook, Hrest, Hhost, bool_decide_eq_true_2 by done. simpl.
  rewrite lookup_insert_eq. split; [done|].
  rewrite filter_app, sendAll_no_BECAME_HOST by done.
  by destruct (isOpen (ws newHost)).
Qed.

End RelayFacts.

Lemma registry_host_invariant_witness :
  let room := Relay.mkRoom [annMember; bobMember] "p1" in
  Relay.players room ≠ [] ∧
  NoDup (Relay.mem_id <$> Relay.players room) ∧
  length (filter (λ p, Relay.mem_id p = Relay.hostId room)
                 (Relay.players room)) = 1%nat.
Proof.
  apply (registry_host_invariant joinABC "ABC").
  vm_compute. reflexivity.
Defined.

Lemma host_migration_witness :
  Relay.rooms (Relay.onClose allOpen roomABC 0%nat).1 !! "ABC"
    = Some (Relay.mkRoom [bobMember] "p2") ∧
  filter (λ s, Relay.isBecameHost s) (Relay.onClose allOpen roomABC 0%nat).2
    = [(1%nat, Relay.BECAME_HOST)].
Proof.
  apply (host_migration allOpen roomABC 0%nat "ABC" "p1"
           (Relay.mkRoom [annMember; bobMember] "p1") bobMember []);
    first [ by vm_compute | vm_compute; reflexivity ].
Defined.

(** C4, counterexample.  Ann, the host, disconnects while Bob's socket is
    already closing (its [readyState] is no longer 1).  Bob is promoted,
    but no [BECAME_HOST] is sent to him or to anybody else: the only
    message of the handler would be [PLAYER_LEFT], and Bob's socket does
    not take it either. *)
Lemma host_migration_without_notice :
  let bobClosing : Relay.Conn → bool := λ c, negb (c =? 1)%nat in
  let after := Relay.onClose bobClosing roomABC 0%nat in
  Relay.currentPlayerId (Relay.vars roomABC 0%nat) = Some "p1" ∧
  Relay.hostId <$> Relay.rooms roomABC !! "ABC" = Some "p1" ∧
  Relay.others (Some "p1") [annMember; bobMember] = [bobMember] ∧
  Relay.rooms after.1 !! "ABC" = Some (Relay.mkRoom [bobMember] "p2") ∧
  ((1%nat, Relay.BECAME_HOST) ∉ after.2) ∧
  after.2 = [].
Proof.
  vm_compute. split_and!; try reflexivity.
  intros H. inversion H.
Qed.

(* ===================================================================== *)
(** * The word source: fallback to the catalog *)
(* ===================================================================== *)

Section GeminiFacts.
Import Gemini.

Lemma catalog_length : length GIANT_WORD_LIST = 30%nat.
Proof. reflexivity. Qed.

Lemma catalog_valid : Forall validRound GIANT_WORD_LIST.
Proof.
  unfold GIANT_WORD_LIST.
  repeat (apply Forall_cons; split; [by split|]).
  apply Forall_nil_2.
Qed.

Lemma catalog_words_distinct : NoDup (word <$> GIANT_WORD_LIST).
Proof. apply (bool_decide_unpack _). by vm_compute. Qed.

(** The fallback sample: [count] distinct valid rounds of the catalog. *)
Lemma fallback_sample shuffled count :
  shuffled ≡ₚ GIANT_WORD_LIST → (count ≤ 30)%nat →
  length (fallback shuffled count) = count ∧
  NoDup (word <$> fallback shuffled count) ∧
  Forall (λ w, w ∈ GIANT_WORD_LIST ∧ validRound w) (fallback shuffled count).
Proof.
  intros Hperm Hcount. unfold fallback. split_and!.
  - rewrite length_take, Hperm, catalog_length. lia.
  - apply (sublist_NoDup _ (word <$> shuffled)).
    + rewrite Hperm. apply catalog_words_distinct.
    + apply fmap_sublist, sublist_take.
  - apply Forall_forall. intros w Hw.
    assert (w ∈ GIANT_WORD_LIST) as Hin.
    { rewrite <- Hperm. eapply elem_of_sublist; [done|apply sublist_take]. }
    split; [done|].
    pose proof catalog_valid as Hvalid. rewrite Forall_forall in Hvalid. auto.
Qed.

(** Every failure the code anticipates ends in the fallback sample: no API
    key, an exception, an answer without text, or text that does not parse. *)
Lemma generateWords_falls_back apiKey src shuffled count :
  truthy apiKey = false ∨ src = Raises ∨
    (∃ text parsed, src = Response text parsed ∧
                    (truthy text = false ∨ parsed = None)) →
  generateWords apiKey src shuffled count = fallback shuffled count.
Proof.
  unfold generateWords.
  intros [->|[->|(text & parsed & -> & [->| ->])]]; simpl; try done.
  - by destruct (truthy apiKey).
  - by destruct (truthy apiKey).
  - by destruct (truthy apiKey), (truthy text).
Qed.

(** When the source raises, [generateWords(5)] returns five distinct valid
    rounds of the catalog. *)
Lemma generateWords_raises apiKey shuffled :
  shuffled ≡ₚ GIANT_WORD_LIST →
  let ws := generateWords apiKey Raises shuffled 5 in
  length ws = 5%nat ∧ NoDup (word <$> ws) ∧
  Forall (λ w, w ∈ GIANT_WORD_LIST ∧ validRound w) ws.
Proof.
  intros Hperm. simpl.
  rewrite generateWords_falls_back by auto.
  apply fallback_sample; [done|lia].
Qed.

(** C5, the failing input.  With an API key set, a source that answers
    with the empty array (text [[]], zero items) is not replaced by the
    catalog: [generateWords(5)] returns no round at all, whatever the
    shuffle. *)
Theorem generateWords_zero_items shuffled :
  generateWords (Some "key") (Response (Some "[]") (Some [])) shuffled 5 = [] ∧
  length (generateWords (Some "key") (Response (Some "[]") (Some []))
            shuffled 5) ≠ 5%nat.
Proof. split; [reflexivity|discriminate]. Qed.

End GeminiFacts.

(** A host that starts a game on an empty word list is [PLAYING] a round
    without a word, and [nextRoundHost] will never leave it. *)
Lemma empty_word_list_round :
  let s := (App.startGameAsHost hostLobby env0 [] hostLobby).1 in
  App.gameStatus s = PLAYING ∧ App.currentWord s = None ∧
  App.nextRoundHost s env0 s = (s, []).
Proof. by vm_compute. Qed.

(* ===================================================================== *)
(** * Scoring, snapshots and chat on the client *)
(* ===================================================================== *)

Section ClientFacts.
Import App.
Local Open Scope handler_scope.

(** C7. The score of a correct guess is [timeLeft * 15 + 100]: 100 at
    zero seconds, 250 at ten seconds, and positive whenever the remaining
    time is not negative. *)
Theorem calculateScore_spec (s : State) :
  0 ≤ timeLeft s →
  calculateScore s = timeLeft s * 15 + 100 ∧
  calculateScore (setTimeLeft 0 s) = 100 ∧
  calculateScore (setTimeLeft 10 s) = 250 ∧
  0 < calculateScore s.
Proof. intros Ht. unfold calculateScore. simpl. lia. Qed.

(** The result of a sequence is the second handler run on the state the
    first one leaves. *)
Lemma andThen_state (h1 h2 : Handler) s :
  (andThen h1 h2 s).1 = (h2 (h1 s).1).1.
Proof.
  unfold andThen. destruct (h1 s) as [s1 e1]. simpl.
  destruct (h2 s1). reflexivity.
Qed.

Lemma andThen_effects (h1 h2 : Handler) s :
  (andThen h1 h2 s).2 = (h1 s).2 ++ (h2 (h1 s).1).2.
Proof.
  unfold andThen. destruct (h1 s) as [s1 e1]. simpl.
  destruct (h2 s1). reflexivity.
Qed.

(** C8. A [SYNC_STATE] snapshot leaves every field it does not carry as it
    was: status, current word, remaining time, round, revealed indices and
    hint count each keep their local value when absent from the payload. *)
Theorem sync_state_frame env data s :
  let s' := (applySyncState env data s).1 in
  (ss_status data = None → gameStatus s' = gameStatus s) ∧
  (ss_currentWord data = None → currentWord s' = currentWord s) ∧
  (ss_timeLeft data = None → timeLeft s' = timeLeft s) ∧
  (ss_round data = None → round s' = round s) ∧
  (ss_revealedIndices data = None → revealedIndices s' = revealedIndices s) ∧
  (ss_revealedHintCount data = None →
     revealedHintCount s' = revealedHintCount s).
Proof.
  destruct data as [[st|] [cw|] [tl|] [[|rd]|] [ri|] [[|hc]|] mr];
    try destruct st; simpl;
    split_and!; intros Habsent; try discriminate Habsent; reflexivity.
Qed.

Lemma hasMessage_true i log :
  hasMessage i log = true ↔ i ∈ m_id <$> log.
Proof.
  unfold hasMessage. rewrite bool_decide_eq_true, Exists_exists.
  rewrite list_elem_of_fmap.
  split; intros (m & H1 & H2); exists m; by split.
Qed.

Lemma occurrences_zero i log : i ∉ m_id <$> log → occurrences i log = 0%nat.
Proof.
  intros Hi. unfold occurrences. apply length_zero_iff_nil.
  destruct (filter _ log) as [|m l] eqn:Hf; [done|]. exfalso. apply Hi.
  assert (m ∈ filter (λ m, m_id m = i) log) as Hm
    by (rewrite Hf; apply list_elem_of_here).
  apply list_elem_of_filter in Hm as [<- Hm]. by apply list_elem_of_fmap_2.
Qed.

Lemma applyChat_present data log :
  m_id data ∈ m_id <$> log → applyChat data log = log.
Proof. intros Hin%hasMessage_true. unfold applyChat. by rewrite Hin. Qed.

Lemma applyChat_has data log : m_id data ∈ m_id <$> applyChat data log.
Proof.
  unfold applyChat. destruct (hasMessage _ log) eqn:Hhas.
  - by apply hasMessage_true.
  - rewrite fmap_app. apply elem_of_app. right. apply list_elem_of_here.
Qed.

(** C9. A [CHAT] event whose id is already in the log leaves the log
    unchanged; so applying an entry a second time changes nothing, and a
    log in which the id occurred at most once holds it exactly once after
    the entry was applied twice. *)
Theorem chat_idempotent others0 isHostRef env data s :
  let apply s := (gameActionListener others0 isHostRef env (CHAT data) s).1 in
  (m_id data ∈ m_id <$> chatMessages s →
     chatMessages (apply s) = chatMessages s) ∧
  chatMessages (apply (apply s)) = chatMessages (apply s) ∧
  ((occurrences (m_id data) (chatMessages s) ≤ 1)%nat →
     occurrences (m_id data) (chatMessages (apply (apply s))) = 1%nat).
Proof.
  simpl. split_and!.
  - apply applyChat_present.
  - apply applyChat_present, applyChat_has.
  - intros Hocc. rewrite applyChat_present by apply applyChat_has.
    unfold applyChat. destruct (hasMessage _ _) eqn:Hhas.
    + apply hasMessage_true in Hhas.
      assert (occurrences (m_id data) (chatMessages s) ≠ 0%nat); [|lia].
      unfold occurrences. intros Hz%length_zero_iff_nil.
      apply list_elem_of_fmap in Hhas as (m & Hid & Hm).
      by apply (filter_nil_not_elem_of _ _ m Hz).
    + unfold occurrences. rewrite filter_app, length_app.
      fold (occurrences (m_id data) (chatMessages s)).
      rewrite occurrences_zero.
      * rewrite filter_cons_True by done. reflexivity.
      * rewrite <- hasMessage_true. by rewrite Hhas.
Qed.

End ClientFacts.

(* ===================================================================== *)
(** * The host: timer, hint reveals and the end of a round *)
(* ===================================================================== *)

Section HostFacts.
Import App.
Local Open Scope handler_scope.

Lemma floorMul_lt r n : (0 < n)%nat → (floorMul r n < n)%nat.
Proof.
  intros Hn. unfold floorMul. pose proof (rand_lt_1 r) as Hr.
  apply Nat.Div0.div_lt_upper_bound. nia.
Qed.

(** ** One hint reveal step *)

Lemma available_spec w revealed i :
  i ∈ available w revealed ↔ (i ∉ revealed) ∧ letterIndex w i.
Proof.
  unfold available, letterIndex.
  rewrite list_elem_of_filter, elem_of_seq. intuition lia.
Qed.

(** The state and the effects of a hint reveal step, given what it adds. *)
Lemma handleGameTickHost_unfold cl env s w :
  currentWord cl = Some w →
  ∃ newIndices,
    handleGameTickHost cl env s =
      (setRevealedHintCount
         (Nat.min (revealedHintCount cl + 1) (length (hints w)))
         (setRevealedIndices newIndices s),
       [broadcastAction (SYNC_HINT_UPDATE newIndices
          (Nat.min (revealedHintCount cl + 1) (length (hints w))))]) ∧
    (newIndices = revealedIndices cl ∧ available w (revealedIndices cl) = []
     ∨ ∃ i, newIndices = revealedIndices cl ++ [i] ∧
            i ∈ available w (revealedIndices cl)).
Proof.
  intros Hw. unfold handleGameTickHost. rewrite Hw.
  destruct (available w (revealedIndices cl)) as [|a l] eqn:Hav.
  - eexists. split; [reflexivity|]. by left.
  - destruct ((a :: l) !! floorMul (random env) (length (a :: l)))
      as [i|] eqn:Hi.
    + eexists. split; [reflexivity|]. right. exists i. split; [done|].
      by eapply list_elem_of_lookup_2.
    + apply lookup_ge_None in Hi.
      pose proof (floorMul_lt (random env) (length (a :: l))) as Hlt.
      simpl in *. lia.
Qed.

(** C10. When every letter position of the current word is already
    revealed, a hint reveal step leaves the revealed indices as they are,
    still advances the hint count to [min(count + 1, hints.length)], and
    still broadcasts one [SYNC_HINT_UPDATE] carrying both values. *)
Theorem hint_step_all_revealed env s w :
  currentWord s = Some w →
  (∀ i, letterIndex w i → i ∈ revealedIndices s) →
  let count := Nat.min (revealedHintCount s + 1) (length (hints w)) in
  revealedIndices (handleGameTickHost s env s).1 = revealedIndices s ∧
  revealedHintCount (handleGameTickHost s env s).1 = count ∧
  (handleGameTickHost s env s).2
    = [broadcastAction (SYNC_HINT_UPDATE (revealedIndices s) count)].
Proof.
  intros Hw Hall.
  destruct (handleGameTickHost_unfold s env s w Hw)
    as (newIndices & -> & [[-> _]|(i & _ & Hi)]).
  - done.
  - apply available_spec in Hi as [Hnot Hletter]. destruct Hnot. by apply Hall.
Qed.

(** ** The per-second timer *)

Lemma handleGameTickHost_timer cl env s :
  timeLeft (handleGameTickHost cl env s).1 = timeLeft s ∧
  filter (λ e, isSyncTime e) (handleGameTickHost cl env s).2 = [].
Proof.
  destruct (currentWord cl) as [w|] eqn:Hw.
  - by destruct (handleGameTickHost_unfold cl env s w Hw) as (n & -> & _).
  - unfold handleGameTickHost. by rewrite Hw.
Qed.

(** C2 (as amended). While the host is [PLAYING], a tick that leaves time
    on the clock decrements it and broadcasts the new value in exactly one
    [SYNC_TIME], the last effect of the tick (a hint update, if any, comes
    first); the tick on which the time runs out sends no [SYNC_TIME]: it
    sets the time to 0 locally and broadcasts the [ROUND_OVER] status. *)
Theorem tick_broadcasts_time env s :
  isHost s = true → gameStatus s = PLAYING →
  (1 < timeLeft s →
     timeLeft (timerFires env s).1 = timeLeft s - 1 ∧
     last (timerFires env s).2
       = Some (broadcastAction (SYNC_TIME (timeLeft s - 1))) ∧
     filter (λ e, isSyncTime e) (timerFires env s).2
       = [broadcastAction (SYNC_TIME (timeLeft s - 1))]) ∧
  (timeLeft s ≤ 1 →
     timeLeft (timerFires env s).1 = 0 ∧
     gameStatus (timerFires env s).1 = ROUND_OVER ∧
     filter (λ e, isSyncTime e) (timerFires env s).2 = [] ∧
     broadcastAction (SYNC_STATE (statusOnly ROUND_OVER))
       ∈ (timerFires env s).2).
Proof.
  intros Hhost Hplaying. unfold timerFires, tick.
  rewrite Hhost, Hplaying. simpl.
  split; intros Ht.
  - rewrite (proj2 (Z.leb_gt _ _)) by lia.
    destruct (handleGameTickHost_timer s env s) as [Htime Hnone].
    destruct (_ && _ && _); simpl.
    + rewrite !andThen_state, !andThen_effects. simpl.
      rewrite app_nil_r, last_snoc, filter_app, Hnone. done.
    + done.
  - rewrite (proj2 (Z.leb_le _ _)) by lia. simpl.
    split_and!; try done. apply list_elem_of_here.
Qed.

(** ** Reveal monotonicity *)

Lemma startRoundHost_resets env w roundNum list s :
  let s' := (startRoundHost env w roundNum list s).1 in
  revealedIndices s' = [] ∧ revealedHintCount s' = 1%nat ∧
  currentWord s' = w ∧ gameStatus s' = PLAYING.
Proof. done. Qed.

Lemma handleGuess_frame cl env s :
  sameReveal s (handleGuess cl env s).1 ∧
  gameStatus (handleGuess cl env s).1 = gameStatus s ∧
  filter (λ e, isSyncState e) (handleGuess cl env s).2 = [] ∧
  filter (λ e, isTimeout e) (handleGuess cl env s).2 = [].
Proof.
  unfold handleGuess, sameReveal.
  destruct (player cl) as [me|], (currentWord cl) as [w|]; try done.
  destruct (_ || _); [done|].
  destruct (String.eqb _ (word w)); [|done].
  simpl. by destruct (hasPlayer _ _).
Qed.

Lemma handleTimeOutHost_frame cl env s :
  sameReveal s (handleTimeOutHost cl env s).1.
Proof. done. Qed.

Lemma applyPlayerScored_frame others0 isHostRef env pid score points name s :
  sameReveal s
    (applyPlayerScored others0 isHostRef env pid score points name s).1.
Proof.
  unfold applyPlayerScored, sameReveal.
  rewrite !andThen_state. simpl.
  destruct (hasPlayer _ _); [by destruct isHostRef|].
  destruct (findPlayer pid (roundWinners s)), (findPlayer pid others0);
    by destruct isHostRef.
Qed.

Lemma onGameAction_frame others0 env a s :
  inRound (Receive others0 env a) →
  sameReveal s (onGameAction others0 env a s).1.
Proof.
  destruct a as [| | |pid score points name|msg]; try done; intros _.
  - unfold onGameAction. rewrite andThen_state.
    destruct (applyPlayerScored_frame others0 (isHost s) env pid score points
                name s) as (Hw & Hi & Hc).
    unfold sameReveal. by destruct (isHost s).
  - unfold onGameAction, sameReveal. by destruct (isHost s).
Qed.

(** One event of a round: the word stays, the hint count stays within the
    hint list, and neither the revealed indices nor the count shrink. *)
Lemma hostStep_monotone w s e :
  inRound e → currentWord s = Some w →
  (revealedHintCount s ≤ length (hints w))%nat →
  currentWord (hostStep s e).1 = Some w ∧
  (revealedHintCount (hostStep s e).1 ≤ length (hints w))%nat ∧
  revealedIndices s `prefix_of` revealedIndices (hostStep s e).1 ∧
  (revealedHintCount s ≤ revealedHintCount (hostStep s e).1)%nat.
Proof.
  intros He Hw Hc.
  assert (∀ s', sameReveal s s' →
    currentWord s' = Some w ∧
    (revealedHintCount s' ≤ length (hints w))%nat ∧
    revealedIndices s `prefix_of` revealedIndices s' ∧
    (revealedHintCount s ≤ revealedHintCount s')%nat) as Hsame.
  { intros s' (-> & -> & ->). done. }
  destruct e as [env|env|text|others0 env a]; simpl.
  - unfold timerFires. destruct (_ && _); [|by apply Hsame].
    unfold tick. destruct (timeLeft s <=? 1); [by apply Hsame|].
    destruct (_ && _ && _); [|by apply Hsame].
    rewrite !andThen_state. simpl.
    destruct (handleGameTickHost_unfold s env s w Hw)
      as (newIndices & -> & Hnew). simpl.
    split_and!; [done|lia| |lia].
    destruct Hnew as [[-> _]|(i & -> & _)]; [done|by apply prefix_app_r].
  - apply Hsame, handleGuess_frame.
  - by apply Hsame.
  - by apply Hsame, onGameAction_frame.
Qed.

Lemma hostRun_app s es1 es2 :
  hostRun s (es1 ++ es2) = hostRun (hostRun s es1) es2.
Proof. revert s. induction es1 as [|e es1 IH]; intros s; simpl; auto. Qed.

Lemma hostRun_monotone w es : ∀ s,
  Forall inRound es → currentWord s = Some w →
  (revealedHintCount s ≤ length (hints w))%nat →
  currentWord (hostRun s es) = Some w ∧
  (revealedHintCount (hostRun s es) ≤ length (hints w))%nat ∧
  revealedIndices s `prefix_of` revealedIndices (hostRun s es) ∧
  (revealedHintCount s ≤ revealedHintCount (hostRun s es))%nat.
Proof.
  induction es as [|e es IH]; intros s Hes Hw Hc; simpl.
  - done.
  - apply Forall_cons in Hes as [He Hes].
    destruct (hostStep_monotone w s e He Hw Hc) as (Hw1 & Hc1 & Hp1 & Hle1).
    destruct (IH _ Hes Hw1 Hc1) as (Hw2 & Hc2 & Hp2 & Hle2).
    split_and!; [done|done| |lia]. by etrans.
Qed.

(** C6 (as amended). A round on a word with at least one hint starts with
    no revealed index and hint count 1; from then on, through timer ticks,
    guesses and received chat and score events, the revealed indices are
    only extended and the hint count only grows; and a hint reveal step
    adds at most one index, a letter position not revealed before, and
    sets the hint count to [min(count + 1, hints.length)]. *)
Theorem reveal_monotone env w roundNum list s0 es1 es2 env' :
  hints w ≠ [] → Forall inRound (es1 ++ es2) →
  let start := (startRoundHost env (Some w) roundNum list s0).1 in
  let earlier := hostRun start es1 in
  let later := hostRun earlier es2 in
  let next := (handleGameTickHost later env' later).1 in
  (revealedIndices start = [] ∧ revealedHintCount start = 1%nat) ∧
  (revealedIndices earlier `prefix_of` revealedIndices later ∧
   (revealedHintCount earlier ≤ revealedHintCount later)%nat) ∧
  ((revealedIndices next = revealedIndices later ∨
    ∃ i, revealedIndices next = revealedIndices later ++ [i] ∧
         (i ∉ revealedIndices later) ∧ letterIndex w i) ∧
   revealedHintCount next
     = Nat.min (revealedHintCount later + 1) (length (hints w))).
Proof.
  intros Hhints [Hes1 Hes2]%Forall_app start earlier later next.
  assert (1 ≤ length (hints w))%nat as Hlen.
  { destruct (hints w); [done|simpl; lia]. }
  destruct (hostRun_monotone w es1 start Hes1 eq_refl Hlen)
    as (Hw1 & Hc1 & _ & _).
  destruct (hostRun_monotone w es2 earlier Hes2 Hw1 Hc1)
    as (Hw2 & Hc2 & Hp & Hle).
  fold later in Hw2, Hc2, Hp, Hle.
  split_and!; [reflexivity|reflexivity|exact Hp|exact Hle| |].
  - subst next.
    destruct (handleGameTickHost_unfold later env' later w Hw2)
      as (newIndices & -> & [[-> _]|(i & -> & Hi)]).
    + by left.
    + right. exists i. split; [done|]. by apply available_spec.
  - subst next.
    by destruct (handleGameTickHost_unfold later env' later w Hw2)
      as (newIndices & -> & _).
Qed.

(** ** A correct guess *)

Lemma hasPlayer_true i ps : hasPlayer i ps = true ↔ i ∈ p_id <$> ps.
Proof.
  unfold hasPlayer. rewrite bool_decide_eq_true, Exists_exists.
  rewrite list_elem_of_fmap.
  split; intros (p & H1 & H2); exists p; by split.
Qed.

(** A [PLAYER_SCORED] that reaches the host from another client ends the
    round at once, broadcasts the status change, records the scorer as a
    round winner and schedules the round advancement 3 seconds later. *)
Lemma remote_score_ends_round others0 env pid score points name s :
  isHost s = true →
  let r := onGameAction others0 env (PLAYER_SCORED pid score points name) s in
  gameStatus r.1 = ROUND_OVER ∧
  broadcastAction (SYNC_STATE (statusOnly ROUND_OVER)) ∈ r.2 ∧
  setTimeout CallNextRoundHost 3000 ∈ r.2 ∧
  pid ∈ p_id <$> roundWinners r.1.
Proof.
  intros Hhost. simpl. unfold onGameAction. rewrite Hhost.
  rewrite andThen_state, andThen_effects. simpl.
  split_and!.
  - done.
  - apply list_elem_of_further, list_elem_of_here.
  - do 2 apply list_elem_of_further. apply list_elem_of_here.
  - destruct (hasPlayer pid (roundWinners s)) eqn:Hhas.
    + by apply hasPlayer_true.
    + destruct (findPlayer pid (roundWinners s)) as [p|] eqn:Hprev;
        [|destruct (findPlayer pid others0) as [p|] eqn:Hothers];
        simpl; rewrite fmap_app; apply elem_of_app; right;
        apply list_elem_of_singleton; simpl; try done.
      all: unfold findPlayer in *.
      all: match goal with
           | H : snd <$> list_find _ _ = Some _ |- _ =>
               apply fmap_Some in H as ([j q] & Hfind & ->);
               apply list_find_Some in Hfind as (_ & Hid & _); by simpl
           end.
Qed.

(** The host's own guess never changes the status, broadcasts no
    snapshot and schedules nothing. *)
Lemma own_guess_never_ends_round cl env s :
  gameStatus (handleGuess cl env s).1 = gameStatus s ∧
  filter (λ e, isSyncState e) (handleGuess cl env s).2 = [] ∧
  filter (λ e, isTimeout e) (handleGuess cl env s).2 = [].
Proof. by destruct (handleGuess_frame cl env s) as (_ & ? & ? & ?). Qed.

(** C1, the failing input.  Ann is the host and guesses the word with 42
    seconds left.  She scores and is recorded as a round winner, and
    [PLAYER_SCORED] is broadcast; the relay forwards it to Bob but not back
    to her.  Her status stays [PLAYING], no status change is broadcast, no
    round advancement is scheduled, and her timer keeps ticking. *)
Theorem host_own_guess_leaves_round_open :
  let r := handleGuess hostAboutToGuess env0 hostAboutToGuess in
  let scored := PLAYER_SCORED "p1" 730 730 "Ann" in
  (isHost hostAboutToGuess = true ∧ gameStatus hostAboutToGuess = PLAYING ∧
   timeLeft hostAboutToGuess = 42) ∧
  (p_id <$> roundWinners r.1 = ["p1"] ∧
   r.2 = [broadcastAction scored;
          broadcastAction
            (CHAT (mkChat "1700000000000" "p1" "Ann" "banana" guess_correct
                          1700000000000))]) ∧
  (Relay.relayAction allOpen roomABC 0%nat scored).2
    = [(1%nat, Relay.GAME_ACTION scored)] ∧
  gameStatus r.1 = PLAYING ∧
  (timerFires env0 r.1).2 = [broadcastAction (SYNC_TIME 41)].
Proof. vm_compute. done. Qed.

End HostFacts.

(* ===================================================================== *)
(** * The theorems at concrete inputs *)
(* ===================================================================== *)

Lemma calculateScore_spec_witness :
  App.calculateScore hostAboutToGuess
    = App.timeLeft hostAboutToGuess * 15 + 100 ∧
  App.calculateScore (App.setTimeLeft 0 hostAboutToGuess) = 100 ∧
  App.calculateScore (App.setTimeLeft 10 hostAboutToGuess) = 250 ∧
  0 < App.calculateScore hostAboutToGuess.
Proof. apply (calculateScore_spec hostAboutToGuess). by vm_compute. Defined.

(** A bare status change leaves the other five fields of a client alone. *)
Lemma sync_state_frame_witness :
  let s' := (App.applySyncState env0 (App.statusOnly ROUND_OVER)
               hostAboutToGuess).1 in
  App.currentWord s' = App.currentWord hostAboutToGuess ∧
  App.timeLeft s' = App.timeLeft hostAboutToGuess ∧
  App.round s' = App.round hostAboutToGuess ∧
  App.revealedIndices s' = App.revealedIndices hostAboutToGuess ∧
  App.revealedHintCount s' = App.revealedHintCount hostAboutToGuess.
Proof.
  destruct (sync_state_frame env0 (App.statusOnly ROUND_OVER) hostAboutToGuess)
    as (_ & Hword & Htime & Hround & Hidx & Hcount).
  split_and!;
    [apply Hword|apply Htime|apply Hround|apply Hidx|apply Hcount];
    reflexivity.
Defined.

(** The entry that opened round 1 arrives again, twice. *)
Lemma chat_idempotent_witness :
  let data := mkChat "1700000000000" "system" "System" "Round 1 started!"
                     system 1700000000000 in
  let apply s := (App.gameActionListener [] false env0 (CHAT data) s).1 in
  App.chatMessages (apply hostRound1) = App.chatMessages hostRound1 ∧
  App.chatMessages (apply (apply hostRound1))
    = App.chatMessages (apply hostRound1) ∧
  App.occurrences "1700000000000"
    (App.chatMessages (apply (apply hostRound1))) = 1%nat.
Proof.
  destruct (chat_idempotent [] false env0
              (mkChat "1700000000000" "system" "System" "Round 1 started!"
                      system 1700000000000) hostRound1)
    as (Hsame & Htwice & Hone).
  split_and!.
  - apply Hsame. vm_compute. apply list_elem_of_here.
  - apply Htwice.
  - apply Hone. vm_compute. lia.
Defined.

Lemma hint_step_all_revealed_witness :
  App.revealedIndices hostAllRevealed = [1%nat; 0%nat] ∧
  App.revealedIndices
    (App.handleGameTickHost hostAllRevealed env0 hostAllRevealed).1
    = [1%nat; 0%nat] ∧
  App.revealedHintCount
    (App.handleGameTickHost hostAllRevealed env0 hostAllRevealed).1 = 3%nat ∧
  (App.handleGameTickHost hostAllRevealed env0 hostAllRevealed).2
    = [App.broadcastAction (SYNC_HINT_UPDATE [1%nat; 0%nat] 3)].
Proof.
  split; [reflexivity|].
  apply (hint_step_all_revealed env0 hostAllRevealed ox); [reflexivity|].
  intros i [Hlt _]. vm_compute in Hlt.
  assert (i = 0 ∨ i = 1)%nat as [-> | ->] by lia; vm_compute.
  - apply list_elem_of_further, list_elem_of_here.
  - apply list_elem_of_here.
Defined.

Lemma tick_broadcasts_time_witness :
  (App.timeLeft (App.timerFires env0 hostRound1).1 = 59 ∧
   last (App.timerFires env0 hostRound1).2
     = Some (App.broadcastAction (SYNC_TIME 59))) ∧
  (App.timeLeft (App.timerFires env0 hostLastSecond).1 = 0 ∧
   App.gameStatus (App.timerFires env0 hostLastSecond).1 = ROUND_OVER).
Proof.
  split.
  - destruct (tick_broadcasts_time env0 hostRound1) as [Hmore _];
      [reflexivity|reflexivity|].
    destruct Hmore as (Htime & Hlast & _); [by vm_compute|].
    split; [exact Htime|exact Hlast].
  - destruct (tick_broadcasts_time env0 hostLastSecond) as [_ Hzero];
      [reflexivity|reflexivity|].
    destruct Hzero as (Htime & Hstatus & _); [by vm_compute|].
    split; [exact Htime|exact Hstatus].
Defined.

(** C2, counterexample.  The host is [PLAYING] with one second left.  The
    next tick brings the remaining time to zero, and the only broadcast of
    that tick is the [ROUND_OVER] status: no [SYNC_TIME] carries the 0. *)
Lemma last_tick_sends_no_time :
  App.isHost hostLastSecond = true ∧
  App.gameStatus hostLastSecond = PLAYING ∧
  App.timeLeft hostLastSecond = 1 ∧
  App.timeLeft (App.timerFires env0 hostLastSecond).1 = 0 ∧
  (App.timerFires env0 hostLastSecond).2
    = [App.broadcastAction (SYNC_STATE (App.statusOnly ROUND_OVER));
       App.setTimeout App.CallNextRoundHost 4000] ∧
  ∀ t, App.broadcastAction (SYNC_TIME t)
         ∉ (App.timerFires env0 hostLastSecond).2.
Proof.
  vm_compute. split_and!; try reflexivity.
  intros t Hin. inversion Hin as [|? ? ? Hin']; subst.
  inversion Hin' as [|? ? ? Hin'']; subst. inversion Hin''.
Qed.

(** C6, counterexample.  The source delivered a word without hints.  The
    round starts with hint count 1; the hint reveal step of the tick that
    brings the clock to 45 seconds sets it to [min(1 + 1, 0)], which is 0:
    the hint count has shrunk within the round, while [PLAYING]. *)
Lemma hintless_word_loses_hint_count :
  let start := (App.startRoundHost env0 (Some hintless) 1 [hintless]
                  hostLobby).1 in
  let later := App.hostRun start (replicate 15 (App.TimerFires env0)) in
  App.isHost start = true ∧ App.gameStatus start = PLAYING ∧
  App.revealedHintCount start = 1%nat ∧
  App.gameStatus later = PLAYING ∧ App.timeLeft later = 45 ∧
  App.revealedHintCount later = 0%nat ∧
  (App.revealedHintCount later < App.revealedHintCount start)%nat.
Proof. vm_compute. split_and!; first [reflexivity | lia]. Qed.

Lemma reveal_monotone_witness :
  let start :=
    (App.startRoundHost env0 (Some banana) 1 firstFive hostLobby).1 in
  let earlier := App.hostRun start (replicate 18 (App.TimerFires env0)) in
  let later := App.hostRun earlier (replicate 20 (App.TimerFires env0)) in
  (App.revealedIndices start = [] ∧ App.revealedHintCount start = 1%nat) ∧
  (App.revealedIndices earlier `prefix_of` App.revealedIndices later ∧
   (App.revealedHintCount earlier ≤ App.revealedHintCount later)%nat).
Proof.
  destruct (reveal_monotone env0 banana 1 firstFive hostLobby
              (replicate 18 (App.TimerFires env0))
              (replicate 20 (App.TimerFires env0)) env0)
    as (Hstart & Hgrow & _).
  - discriminate.
  - apply Forall_app. split; apply Forall_replicate; exact I.
  - split; [exact Hstart|exact Hgrow].
Defined.

(* ===================================================================== *)
(** * More on the relay: joining, leaving, forwarding *)
(* ===================================================================== *)

Section RelayMore.
Import Relay.

Lemma vars_joinRoom isOpen st c roomId player :
  vars (joinRoom isOpen st c roomId player).1 c
    = mkVars (Some roomId) (Some (p_id player)).
Proof. unfold vars, joinRoom. simpl. by rewrite lookup_insert_eq. Qed.

Lemma sendAll_spec isOpen ps msg ex w m :
  (w, m) ∈ sendAll isOpen ps msg ex ↔
  m = msg ∧ ∃ p, p ∈ ps ∧ ws p = w ∧ Some (mem_id p) ≠ ex ∧ isOpen w = true.
Proof.
  unfold sendAll. rewrite list_elem_of_fmap. split.
  - intros (p & [= -> ->] & ((Hnex & Hopen) & Hp)%list_elem_of_filter).
    split; [done|]. by exists p.
  - intros (-> & p & Hp & <- & Hnex & Hopen). exists p. split; [done|].
    apply list_elem_of_filter. done.
Qed.

(** X1. When the last member's connection closes, the room is deleted,
    nothing is sent, the other rooms are untouched, and a game action
    that still names the room is dropped. *)
Theorem room_teardown isOpen st c roomId room :
  currentRoomId (vars st c) = Some roomId → roomId ≠ "" →
  rooms st !! roomId = Some room →
  others (currentPlayerId (vars st c)) (players room) = [] →
  let st' := (onClose isOpen st c).1 in
  rooms st' !! roomId = None ∧
  (onClose isOpen st c).2 = [] ∧
  (∀ r, r ≠ roomId → rooms st' !! r = rooms st !! r) ∧
  ∀ isOpen' c' payload,
    currentRoomId (vars st' c') = Some roomId →
    relayAction isOpen' st' c' payload = (st', []).
Proof.
  intros Hroom Hne Hlook Hlast. unfold onClose.
  rewrite Hroom, (truthy_Some _ Hne). simpl. rewrite Hlook, Hlast. simpl.
  split_and!.
  - apply lookup_delete_eq.
  - done.
  - intros r Hr. by apply lookup_delete_ne.
  - intros isOpen' c' payload Hc'. unfold relayAction, broadcastToRoom.
    rewrite Hc'. simpl. by rewrite lookup_delete_eq.
Qed.

(** X2. When a connection that joined a room with a non-empty code, as a
    player other than the room's host, closes and other members remain,
    the room keeps its host and the remaining members in their order, the
    leaver's id is gone, and the only messages are one [PLAYER_LEFT] to
    each remaining member whose socket is open. *)
Theorem member_leaves isOpen st c roomId pid room :
  currentRoomId (vars st c) = Some roomId → roomId ≠ "" →
  currentPlayerId (vars st c) = Some pid →
  rooms st !! roomId = Some room →
  hostId room ≠ pid →
  others (Some pid) (players room) ≠ [] →
  let remaining := others (Some pid) (players room) in
  rooms (onClose isOpen st c).1 !! roomId
    = Some (mkRoom remaining (hostId room)) ∧
  (pid ∉ mem_id <$> remaining) ∧
  (onClose isOpen st c).2
    = (λ p, (ws p, PLAYER_LEFT (Some pid)))
        <$> filter (λ p, isOpen (ws p) = true) remaining.
Proof.
  intros Hroom Hne Hpid Hlook Hhost Hrest remaining. unfold onClose.
  rewrite Hroom, Hpid, (truthy_Some _ Hne). simpl. rewrite Hlook.
  fold remaining.
  assert (pid ∉ mem_id <$> remaining) as Hgone.
  { intros (m & Hid & Hm)%list_elem_of_fmap.
    apply list_elem_of_filter in Hm as [Hm _]. congruence. }
  assert (sendAll isOpen remaining (PLAYER_LEFT (Some pid)) None
          = (λ p, (ws p, PLAYER_LEFT (Some pid)))
              <$> filter (λ p, isOpen (ws p) = true) remaining) as Hsent.
  { unfold sendAll. f_equal. apply list_filter_iff. intros m.
    split; [intros [_ Hopen]; exact Hopen|].
    intros Hopen. split; [discriminate|exact Hopen]. }
  fold remaining in Hrest. clearbody remaining.
  destruct remaining as [|p rest]; [done|].
  rewrite bool_decide_eq_false_2 by congruence. simpl.
  rewrite lookup_insert_eq. by rewrite Hsent.
Qed.

(** X3. A game action is forwarded unchanged to exactly the open sockets
    of the members of the sender's room whose id is not the sender's;
    the registry is left as it is. *)
Theorem relay_forwards isOpen st c payload w m :
  (relayAction isOpen st c payload).1 = st ∧
  ((w, m) ∈ (relayAction isOpen st c payload).2 ↔
   m = GAME_ACTION payload ∧
   ∃ room p, currentRoomId (vars st c) ≫= (rooms st !!.) = Some room ∧
             p ∈ players room ∧ ws p = w ∧
             Some (mem_id p) ≠ currentPlayerId (vars st c) ∧
             isOpen w = true).
Proof.
  split; [done|]. unfold relayAction, broadcastToRoom. simpl.
  destruct (currentRoomId (vars st c) ≫= _) as [room|].
  - rewrite sendAll_spec. split.
    + intros (-> & p & Hp). split; [done|]. by exists room, p.
    + intros (-> & room' & p & [= <-] & Hp). split; [done|]. by exists p.
  - split; [by intros ?%elem_of_nil|]. by intros (_ & room & p & ? & _).
Qed.

(** X4. The first join to a room code creates the room with the joiner as
    its only member and host; the joiner is told so, and nobody else is
    told anything. *)
Theorem join_creates_room isOpen st c roomId player :
  rooms st !! roomId = None →
  rooms (joinRoom isOpen st c roomId player).1 !! roomId
    = Some (mkRoom [mkMember player c] (p_id player)) ∧
  (joinRoom isOpen st c roomId player).2
    = [(c, ROOM_JOINED true [player])].
Proof.
  intros Hnone. unfold joinRoom. rewrite Hnone. simpl.
  rewrite lookup_insert_eq, bool_decide_eq_true_2 by done.
  split; [done|]. f_equal. unfold broadcastToRoom. simpl.
  rewrite lookup_insert_eq. unfold sendAll. simpl.
  rewrite filter_cons_False; [done|]. intros [Hne _]. by apply Hne.
Qed.

Lemma filter_ext_in {A} (P Q : A → Prop) `{!∀ x, Decision (P x)}
    `{!∀ x, Decision (Q x)} (l : list A) :
  (∀ x, x ∈ l → P x ↔ Q x) → filter P l = filter Q l.
Proof.
  induction l as [|a l IH]; intros Hext; [done|].
  rewrite !filter_cons.
  assert (filter P l = filter Q l) as ->.
  { apply IH. intros x Hx. apply Hext. by apply list_elem_of_further. }
  pose proof (Hext a (list_elem_of_here _ _)) as Ha.
  destruct (decide (P a)) as [HP|HP], (decide (Q a)) as [HQ|HQ];
    tauto || done.
Qed.

Lemma run_registry_ok tr : registry_ok (run init tr).
Proof. apply reachable_ok, run_reachable, reach_init. Qed.

(** X5. A player whose id is new to an existing room is appended to the
    member list and is not the host; the joiner gets the full member list,
    and every earlier member with an open socket gets one
    [PLAYER_JOINED]. *)
Theorem join_existing_room isOpen tr c roomId player room :
  rooms (run init tr) !! roomId = Some room →
  p_id player ∉ mem_id <$> players room →
  let joined := joinRoom isOpen (run init tr) c roomId player in
  rooms joined.1 !! roomId
    = Some (mkRoom (players room ++ [mkMember player c]) (hostId room)) ∧
  joined.2
    = (c, ROOM_JOINED false ((mem_player <$> players room) ++ [player]))
      :: ((λ p, (ws p, PLAYER_JOINED player))
            <$> filter (λ p, isOpen (ws p) = true) (players room)).
Proof.
  intros Hlook Hnew. simpl. unfold joinRoom. rewrite Hlook. simpl.
  destruct (run_registry_ok tr _ _ Hlook) as [_ Hhost].
  assert (list_find (λ p, mem_id p = p_id player) (players room) = None)
    as ->.
  { apply list_find_None, Forall_forall. intros m Hm Hid.
    apply Hnew. rewrite <- Hid. by apply list_elem_of_fmap_2. }
  rewrite lookup_insert_eq. split; [done|].
  rewrite bool_decide_eq_false_2 by (intros Heq; by rewrite Heq in Hhost).
  rewrite fmap_app. simpl. f_equal.
  unfold broadcastToRoom. simpl. rewrite lookup_insert_eq. simpl.
  unfold sendAll. f_equal. rewrite filter_app.
  rewrite (filter_cons_False _ (mkMember player c)) by (intros [Hne _]; by apply Hne).
  rewrite filter_nil, app_nil_r. apply filter_ext_in. intros m Hm.
  split; [by intros [_ ?]|]. intros Hopen. split; [|done].
  intros [= Hid]. apply Hnew. rewrite <- Hid. by apply list_elem_of_fmap_2.
Qed.

(** X6. A join with an id the room already holds is a reconnect: the
    member list keeps its length and ids, the entry gets the new socket
    and name and keeps its old score, the host stays, the joiner is host
    again iff it was, and the others are still sent [PLAYER_JOINED]. *)
Theorem rejoin_updates_in_place isOpen tr c roomId player room i m :
  rooms (run init tr) !! roomId = Some room →
  players room !! i = Some m → mem_id m = p_id player →
  let joined := joinRoom isOpen (run init tr) c roomId player in
  let entry :=
    mkMember (mkPlayer (p_id player) (p_name player) (p_score (mem_player m))
                (p_isSelf (mem_player m)) (p_avatarColor (mem_player m))) c in
  rooms joined.1 !! roomId
    = Some (mkRoom (<[i := entry]> (players room)) (hostId room)) ∧
  length (<[i := entry]> (players room)) = length (players room) ∧
  joined.2
    = (c, ROOM_JOINED (bool_decide (hostId room = p_id player))
            (mem_player <$> <[i := entry]> (players room)))
      :: ((λ p, (ws p, PLAYER_JOINED player))
            <$> filter (λ p, mem_id p ≠ p_id player ∧ isOpen (ws p) = true)
                       (players room)).
Proof.
  intros Hlook Hi Hid. simpl. unfold joinRoom. rewrite Hlook. simpl.
  destruct (run_registry_ok tr _ _ Hlook) as [Hnd _].
  assert (list_find (λ p, mem_id p = p_id player) (players room)
          = Some (i, m)) as ->.
  { apply list_find_Some. split_and!; [done|done|].
    intros j y Hj Hlt Hy.
    assert (i = j); [|lia].
    eapply (NoDup_lookup (mem_id <$> players room)); [done| |].
    - by rewrite list_lookup_fmap, Hi.
    - rewrite list_lookup_fmap, Hj. simpl. congruence. }
  unfold reconnect. rewrite <- Hid. simpl.
  rewrite lookup_insert_eq. split_and!; [done|apply length_insert|].
  f_equal. unfold broadcastToRoom. simpl. rewrite lookup_insert_eq. simpl.
  unfold sendAll. f_equal.
  set (entry := mkMember _ c).
  assert (players room = take i (players room) ++ m :: drop (S i) (players room))
    as Hsplit by (by rewrite take_drop_middle).
  rewrite Hsplit at 2.
  rewrite insert_take_drop by (by eapply lookup_lt_Some).
  rewrite !filter_app, !filter_cons.
  rewrite decide_False by (intros [Hne _]; by apply Hne).
  rewrite decide_False by (intros [Hne _]; by apply Hne).
  f_equal; [|]; apply list_filter_iff; intros x;
    (split; intros [Hne Hopen]; (split; [congruence|done])).
Qed.

(** In a room with the empty code a step never removes a member. *)
Lemma empty_code_step isOpen st e room :
  rooms st !! "" = Some room →
  ∃ room', rooms (step isOpen st e).1 !! "" = Some room' ∧
           mem_id <$> players room `prefix_of` mem_id <$> players room'.
Proof.
  intros Hlook. destruct e as [c [roomId player|payload]|c]; simpl.
  - destruct (decide (roomId = "")) as [->|Hne].
    + destruct (joinRoom_order isOpen st c "" player room Hlook)
        as (new & Hnew & _ & [Hids|Hids]).
      * exists new. split; [done|]. by rewrite Hids.
      * exists new. split; [done|]. rewrite Hids. by apply prefix_app_r.
    + exists room. split; [|done]. unfold joinRoom. simpl.
      by rewrite lookup_insert_ne.
  - by exists room.
  - exists room. split; [|done]. unfold onClose.
    destruct (currentRoomId (vars st c)) as [roomId|]; [|done]. simpl.
    destruct (String.eqb_spec roomId "") as [->|Hne]; [done|]. simpl.
    destruct (rooms st !! roomId) as [r|]; [|done].
    destruct (others _ (players r)) as [|newHost rest]; simpl.
    + by rewrite lookup_delete_ne.
    + case_bool_decide; simpl; by rewrite lookup_insert_ne.
Qed.

(** X7. The room with the empty room code is never cleaned up: whatever
    happens afterwards, closes included, the room stays in the registry
    and keeps every member it has, in order. *)
Theorem empty_code_room_never_cleaned tr st room :
  rooms st !! "" = Some room →
  ∃ room', rooms (run st tr) !! "" = Some room' ∧
           mem_id <$> players room `prefix_of` mem_id <$> players room'.
Proof.
  revert st room. induction tr as [|[isOpen e] tr IH]; intros st room Hlook.
  - by exists room.
  - simpl. destruct (empty_code_step isOpen st e room Hlook)
      as (room1 & Hlook1 & Hpre1).
    destruct (IH _ _ Hlook1) as (room2 & Hlook2 & Hpre2).
    exists room2. split; [done|]. by etrans.
Qed.

Lemma join_close_rooms isOpen isOpen' st c roomId player :
  rooms st !! roomId = None → roomId ≠ "" →
  rooms (onClose isOpen' (joinRoom isOpen st c roomId player).1 c).1
    = rooms st.
Proof.
  intros Hnone Hne. unfold onClose. rewrite vars_joinRoom. simpl.
  destruct (String.eqb_spec roomId "") as [->|_]; [done|]. simpl.
  unfold joinRoom. rewrite Hnone. simpl. rewrite lookup_insert_eq. simpl.
  unfold others. simpl. rewrite filter_cons_False by (intros Hn; by apply Hn).
  simpl. rewrite delete_insert_eq. by apply delete_id.
Qed.

(** X8. Joining a room that does not exist and closing the connection
    again leaves the registry's rooms exactly as they were, and the only
    message of the two steps is the joiner's [ROOM_JOINED]. *)
Theorem join_then_leave isOpen isOpen' st c roomId player :
  rooms st !! roomId = None → roomId ≠ "" →
  let joined := joinRoom isOpen st c roomId player in
  rooms (onClose isOpen' joined.1 c).1 = rooms st ∧
  joined.2 ++ (onClose isOpen' joined.1 c).2
    = [(c, ROOM_JOINED true [player])].
Proof.
  intros Hnone Hne joined. split; [by apply join_close_rooms|].
  unfold onClose. subst joined. rewrite vars_joinRoom. simpl.
  destruct (String.eqb_spec roomId "") as [->|_]; [done|]. simpl.
  unfold joinRoom, broadcastToRoom. rewrite Hnone. simpl.
  rewrite !lookup_insert_eq, bool_decide_eq_true_2 by done. simpl.
  unfold others, sendAll. simpl.
  rewrite (filter_cons_False (λ p, Some (mem_id p) ≠ Some (p_id player) ∧ _))
    by (intros [Hn _]; by apply Hn).
  rewrite (filter_cons_False (λ p, Some (mem_id p) ≠ Some (p_id player)))
    by (intros Hn; by apply Hn).
  done.
Qed.

End RelayMore.

(* ===================================================================== *)
(** * The socket service: queueing and listeners *)
(* ===================================================================== *)

Section SocketFacts.
Import Socket.

Lemma filter_all {A} (P : A → Prop) `{!∀ x, Decision (P x)} (l : list A) :
  (∀ x, x ∈ l → P x) → filter P l = l.
Proof.
  induction l as [|a l IH]; intros Hall; [done|].
  rewrite filter_cons_True by apply Hall, list_elem_of_here.
  f_equal. apply IH. intros x Hx. by apply Hall, list_elem_of_further.
Qed.

Lemma sendAllRaw_disconnected ms : ∀ s,
  isConnected s = false →
  sendAllRaw ms s
    = (mkService (ws s) (listeners s) false (messageQueue s ++ ms), []).
Proof.
  induction ms as [|m ms IH]; intros [w l conn q] Hconn;
    simpl in *; subst conn.
  - by rewrite app_nil_r.
  - unfold sendRaw. simpl. rewrite IH by done. simpl.
    by rewrite <- app_assoc.
Qed.

(** X9. Messages handed to the service before the connection is open
    are not sent but queued; when the socket opens they are all sent, in
    the order they were handed over, and the queue is empty; from then on
    every message is sent at once. *)
Theorem queue_flushed_in_order s ms w :
  isConnected s = false → ws s = Some w →
  let queued := sendAllRaw ms s in
  let opened := onopen queued.1 in
  queued.2 = [] ∧
  opened.2 = wsSend w <$> (messageQueue s ++ ms) ∧
  messageQueue opened.1 = [] ∧
  ∀ m, sendRaw m opened.1 = (opened.1, [wsSend w m]).
Proof.
  intros Hconn Hws. simpl. rewrite sendAllRaw_disconnected by done.
  unfold onopen, flushQueue. simpl. rewrite Hws. simpl.
  split_and!; done.
Qed.

(** X10. A listener is called after the listeners registered before it;
    once its cleanup function has run it is not called any more, and if
    it was not registered before, every event is dispatched as if it had
    never been registered. *)
Theorem unsubscribe_removes_listener s event cb data :
  let s1 := on event cb s in
  let s2 := unsubscribe event cb s1 in
  emit event data s1 = emit event data s ++ [call cb data] ∧
  (call cb data ∉ emit event data s2) ∧
  (cb ∉ default [] (listeners s !! event) →
     emit event data s2 = emit event data s) ∧
  (∀ e', e' ≠ event → emit e' data s2 = emit e' data s).
Proof.
  simpl. unfold unsubscribe, on, emit. simpl.
  rewrite !lookup_insert_eq. simpl. rewrite !lookup_insert_eq. simpl.
  split_and!.
  - by rewrite fmap_app.
  - intros (cb' & [= <-] & Hcb)%list_elem_of_fmap.
    by apply list_elem_of_filter in Hcb as [Hne _].
  - intros Hnew. f_equal. rewrite filter_app.
    rewrite filter_cons_False, filter_nil, app_nil_r by (intros Hn; by apply Hn).
    apply filter_all. intros x Hx ->. done.
  - intros e' Hne. rewrite insert_insert_eq. by rewrite lookup_insert_ne.
Qed.

End SocketFacts.

(* ===================================================================== *)
(** * More on the word source *)
(* ===================================================================== *)

(** X11. Without an API key the source is never consulted: whatever it
    would do, [generateWords(count)] returns [min(count, 30)] rounds, all
    valid catalog rounds with pairwise different words. *)
Theorem generateWords_without_key apiKey src shuffled count :
  Gemini.truthy apiKey = false → shuffled ≡ₚ Gemini.GIANT_WORD_LIST →
  let ws := Gemini.generateWords apiKey src shuffled count in
  length ws = (count `min` 30)%nat ∧
  NoDup (word <$> ws) ∧
  Forall (λ w, w ∈ Gemini.GIANT_WORD_LIST ∧ Gemini.validRound w) ws.
Proof.
  intros Hkey Hperm. simpl.
  rewrite generateWords_falls_back by auto.
  unfold Gemini.fallback.
  assert (length shuffled = 30%nat) as Hlen
    by (by rewrite Hperm, catalog_length).
  destruct (decide (count ≤ 30)%nat) as [Hle|Hgt].
  - destruct (fallback_sample shuffled count Hperm Hle) as (H1 & H2 & H3).
    unfold Gemini.fallback in *. split_and!; [lia|done|done].
  - rewrite take_ge by lia.
    destruct (fallback_sample shuffled 30 Hperm (le_n _)) as (H1 & H2 & H3).
    unfold Gemini.fallback in *. rewrite take_ge in H1, H2, H3 by lia.
    split_and!; [lia|done|done].
Qed.

(* ===================================================================== *)
(** * Guessing and round progression *)
(* ===================================================================== *)

Section RoundFacts.
Import App Client.
Local Open Scope handler_scope.

(** X12. For input text of ASCII characters, a submitted guess announces
    a score exactly when it is made during play by a joined player and
    its text, trimmed and in upper case, is the current word; blank input,
    input outside [PLAYING] and wrong guesses never score. *)
Theorem guess_scores_iff_correct cl env s :
  isAscii (inputValue cl) →
  (∃ i sc pts n,
     broadcastAction (PLAYER_SCORED i sc pts n) ∈ (handleGuess cl env s).2) ↔
  ∃ me w, player cl = Some me ∧ currentWord cl = Some w ∧
          gameStatus cl = PLAYING ∧ trim (inputValue cl) ≠ "" ∧
          toUpperCase (trim (inputValue cl)) = word w.
Proof.
  intros _. unfold handleGuess.
  destruct (player cl) as [me|]; [|split].
  2:{ intros (? & ? & ? & ? & []%elem_of_nil). }
  2:{ by intros (? & ? & ? & _). }
  destruct (currentWord cl) as [w|]; [|split].
  2:{ intros (? & ? & ? & ? & []%elem_of_nil). }
  2:{ by intros (? & ? & _ & ? & _). }
  destruct (String.eqb_spec (trim (inputValue cl)) "") as [Hblank|Htext];
    simpl.
  { split; [intros (? & ? & ? & ? & []%elem_of_nil)|].
    by intros (? & ? & _ & _ & _ & ? & _). }
  case_bool_decide as Hplaying; simpl.
  2:{ split; [intros (? & ? & ? & ? & []%elem_of_nil)|].
      by intros (? & ? & _ & _ & ? & _). }
  destruct (String.eqb_spec (toUpperCase (trim (inputValue cl))) (word w))
    as [Hright|Hwrong]; simpl.
  - split; [|intros _; do 4 eexists; apply list_elem_of_here].
    intros _. by exists me, w.
  - split.
    + intros (? & ? & ? & ? & Hin). simpl in Hin.
      apply list_elem_of_singleton in Hin. discriminate Hin.
    + intros (? & w' & _ & [= <-] & _ & _ & ?). done.
Qed.






(** The two outcomes of a round advancement. *)
Lemma nextRoundHost_cases cl env s :
  ((round cl < length (wordList cl))%nat →
     let s' := (nextRoundHost cl env s).1 in
     gameStatus s' = PLAYING ∧
     round s' = (round cl + 1)%nat ∧
     (round s' ≤ length (wordList cl))%nat ∧
     is_Some (currentWord s') ∧
     currentWord s' = wordList cl !! round cl ∧
     timeLeft s' = ROUND_TIME ∧ revealedIndices s' = [] ∧
     revealedHintCount s' = 1%nat ∧ roundWinners s' = []) ∧
  (wordList cl ≠ [] → (length (wordList cl) ≤ round cl)%nat →
     gameStatus (nextRoundHost cl env s).1 = GAME_OVER ∧
     round (nextRoundHost cl env s).1 = round s ∧
     currentWord (nextRoundHost cl env s).1 = currentWord s ∧
     (nextRoundHost cl env s).2
       = [broadcastAction (SYNC_STATE (statusOnly GAME_OVER))]).
Proof.
  unfold nextRoundHost. split.
  - intros Hlt. destruct (wordList cl) as [|w0 ws] eqn:Hlist;
      [simpl in Hlt; lia|].
    rewrite (proj2 (Nat.leb_gt _ _)) by done. simpl.
    replace (round cl + 1 - 1)%nat with (round cl) by lia.
    split_and!; try reflexivity.
    + simpl in *. lia.
    + by apply lookup_lt_is_Some.
  - intros Hne Hge. destruct (wordList cl) as [|w0 ws] eqn:Hlist; [done|].
    by rewrite (proj2 (Nat.leb_le _ _)) by done.
Qed.

(** X14. A round advancement that finds rounds left starts the next one,
    whatever state it meets: the round index is the closure's plus one and
    within the word list, the word is the next of the list, the clock is
    full, nothing is revealed, one hint shows, no winner is recorded.  One
    that finds the last round played ends the game: the status becomes
    [GAME_OVER], which is all it broadcasts, and the round index stays. *)
Theorem nextRoundHost_advances cl env s :
  ((round cl < length (wordList cl))%nat →
     let s' := (nextRoundHost cl env s).1 in
     gameStatus s' = PLAYING ∧
     round s' = (round cl + 1)%nat ∧
     (round s' ≤ length (wordList cl))%nat ∧
     is_Some (currentWord s') ∧
     currentWord s' = wordList cl !! round cl ∧
     timeLeft s' = ROUND_TIME ∧ revealedIndices s' = [] ∧
     revealedHintCount s' = 1%nat ∧ roundWinners s' = []) ∧
  (wordList cl ≠ [] → (length (wordList cl) ≤ round cl)%nat →
     gameStatus (nextRoundHost cl env s).1 = GAME_OVER ∧
     round (nextRoundHost cl env s).1 = round s ∧
     currentWord (nextRoundHost cl env s).1 = currentWord s ∧
     (nextRoundHost cl env s).2
       = [broadcastAction (SYNC_STATE (statusOnly GAME_OVER))]).
Proof.
  destruct (nextRoundHost_cases cl env s) as [Hnext Hover].
  split; [exact Hnext|exact Hover].
Qed.

Lemma startGameAsHost_state cl env words s :
  isHost cl = true →
  let s' := (startGameAsHost cl env words s).1 in
  wordList s' = words ∧ round s' = 1%nat ∧ gameStatus s' = PLAYING ∧
  currentWord s' = words !! 0%nat.
Proof. intros Hhost. unfold startGameAsHost. by rewrite Hhost. Qed.

Lemma nextRoundHost_wordList cl env s :
  wordList (nextRoundHost cl env s).1 = wordList s.
Proof.
  unfold nextRoundHost. destruct (wordList cl); [done|].
  by destruct (_ <=? _)%nat.
Qed.

(** X16. The snapshot broadcast at the start of a round is complete: a
    participant that applies it shows the host's status, word, clock,
    round index, revealed indices and hint count, whatever it showed
    before, and has no round winner recorded. *)
Theorem round_start_snapshot_syncs_client cl env s others0 env' c :
  (round cl < length (wordList cl))%nat →
  let c' := deliver others0 env' (nextRoundHost cl env s).2 c in
  roundView c' = roundView (nextRoundHost cl env s).1 ∧
  roundWinners c' = [].
Proof.
  intros Hlt. unfold nextRoundHost.
  destruct (wordList cl) as [|w0 ws] eqn:Hlist; [simpl in Hlt; lia|].
  rewrite (proj2 (Nat.leb_gt _ _)) by done.
  replace (round cl + 1 - 1)%nat with (round cl) by lia.
  destruct (lookup_lt_is_Some_2 (w0 :: ws) (round cl) Hlt) as [w Hw].
  rewrite Hw, Nat.add_1_r. unfold deliver, onGameAction. simpl.
  by destruct (isHost c).
Qed.

Lemma onGameAction_time others0 env t c :
  roundView (onGameAction others0 env (SYNC_TIME t) c).1
    = (gameStatus c, currentWord c, t, round c, revealedIndices c,
       revealedHintCount c).
Proof. unfold onGameAction. by destruct (isHost c). Qed.

Lemma onGameAction_hint others0 env indices count c :
  count ≠ 0%nat →
  roundView (onGameAction others0 env (SYNC_HINT_UPDATE indices count) c).1
    = (gameStatus c, currentWord c, timeLeft c, round c, indices, count).
Proof.
  intros Hcount. unfold onGameAction.
  destruct count as [|count]; [done|]. by destruct (isHost c).
Qed.

(** X17. A tick that leaves time on the clock keeps a participant in
    step with the host: if it showed the host's round state before the
    tick, then after applying the tick's broadcasts it shows the host's
    round state after the tick.  The word, if any, must have a hint. *)
Theorem tick_keeps_client_in_sync env h others0 env' c :
  isHost h = true → gameStatus h = PLAYING → 1 < timeLeft h →
  (∀ w, currentWord h = Some w → hints w ≠ []) →
  roundView c = roundView h →
  roundView (deliver others0 env' (timerFires env h).2 c)
    = roundView (timerFires env h).1.
Proof.
  intros Hhost Hplaying Ht Hhints Hsync. unfold timerFires, tick.
  rewrite Hhost, Hplaying. simpl.
  rewrite (proj2 (Z.leb_gt _ _)) by lia.
  injection Hsync as Hs Hw Htl Hr Hi Hc.
  destruct (_ && _ && _); simpl.
  - rewrite !andThen_state, !andThen_effects. simpl.
    destruct (currentWord h) as [w|] eqn:Hword.
    + destruct (handleGameTickHost_unfold h env h w Hword)
        as (newIndices & -> & _). simpl.
      unfold deliver. simpl.
      rewrite onGameAction_time.
      assert (length (hints w) ≠ 0)%nat as Hlen.
      { specialize (Hhints w eq_refl). by destruct (hints w). }
      assert (Nat.min (revealedHintCount h + 1) (length (hints w)) ≠ 0)%nat
        as Hcount by lia.
      pose proof (onGameAction_hint others0 env' newIndices _ c Hcount)
        as Hhint.
      unfold roundView in Hhint.
      injection Hhint as H1 H2 H3 H4 H5 H6.
      rewrite H1, H2, H4, H5, H6, Hs, Hw, Hr.
      unfold roundView. simpl. by rewrite Hword.
    + unfold handleGameTickHost. rewrite Hword. simpl.
      unfold deliver. simpl. rewrite onGameAction_time.
      unfold roundView. simpl. by rewrite Hs, Hw, Hr, Hi, Hc, Hword.
  - unfold deliver. simpl. rewrite onGameAction_time.
    unfold roundView. simpl. by rewrite Hs, Hw, Hr, Hi, Hc.
Qed.

(** ** The clock and the reveals during a round *)

Lemma sameReveal_refl s : sameReveal s s.
Proof. by repeat split. Qed.

Lemma handleGuess_timeLeft cl env s :
  timeLeft (handleGuess cl env s).1 = timeLeft s.
Proof.
  unfold handleGuess.
  destruct (player cl) as [me|], (currentWord cl) as [w|]; try done.
  destruct (_ || _); [done|].
  destruct (String.eqb _ (word w)); [|done].
  simpl. by destruct (hasPlayer _ _).
Qed.

Lemma applyPlayerScored_timeLeft others0 isHostRef env pid score points
    name s :
  timeLeft (applyPlayerScored others0 isHostRef env pid score points name s).1
    = timeLeft s.
Proof.
  unfold applyPlayerScored. rewrite !andThen_state. simpl.
  destruct (hasPlayer _ _); [by destruct isHostRef|].
  destruct (findPlayer pid (roundWinners s)), (findPlayer pid others0);
    by destruct isHostRef.
Qed.

Lemma onGameAction_timeLeft others0 env a s :
  inRound (Receive others0 env a) →
  timeLeft (onGameAction others0 env a s).1 = timeLeft s.
Proof.
  destruct a as [| | |pid score points name|msg]; try done; intros _.
  - unfold onGameAction. rewrite andThen_state.
    pose proof (applyPlayerScored_timeLeft others0 (isHost s) env pid score
                  points name s) as Htime.
    by destruct (isHost s).
  - unfold onGameAction. by destruct (isHost s).
Qed.

(** What one event of a round does to the clock and the reveal state:
    nothing, or the last tick, or a plain tick, or a tick with a hint
    reveal step. *)
Lemma hostStep_round w s e :
  inRound e → currentWord s = Some w →
  let s' := (hostStep s e).1 in
  let due t := (Z.rem t HINT_INTERVAL =? 0) && negb (t =? ROUND_TIME)
               && (0 <? t) in
  currentWord s' = Some w ∧
  ((timeLeft s' = timeLeft s ∨ timeLeft s ≤ 1 ∧ timeLeft s' = 0 ∨
    1 < timeLeft s ∧ timeLeft s' = timeLeft s - 1 ∧
    due (timeLeft s - 1) = false) ∧
   revealedIndices s' = revealedIndices s ∧
   revealedHintCount s' = revealedHintCount s
   ∨
   1 < timeLeft s ∧ timeLeft s' = timeLeft s - 1 ∧
   due (timeLeft s - 1) = true ∧
   revealedHintCount s'
     = Nat.min (revealedHintCount s + 1) (length (hints w)) ∧
   (revealedIndices s' = revealedIndices s ∨
    ∃ i, revealedIndices s' = revealedIndices s ++ [i] ∧
         i ∈ available w (revealedIndices s))).
Proof.
  intros He Hw. simpl.
  assert (∀ s', sameReveal s s' → timeLeft s' = timeLeft s →
    currentWord s' = Some w ∧
    ((timeLeft s' = timeLeft s ∨ timeLeft s ≤ 1 ∧ timeLeft s' = 0 ∨
      1 < timeLeft s ∧ timeLeft s' = timeLeft s - 1 ∧
      (Z.rem (timeLeft s - 1) HINT_INTERVAL =? 0)
        && negb (timeLeft s - 1 =? ROUND_TIME) && (0 <? timeLeft s - 1)
      = false) ∧
     revealedIndices s' = revealedIndices s ∧
     revealedHintCount s' = revealedHintCount s
     ∨
     1 < timeLeft s ∧ timeLeft s' = timeLeft s - 1 ∧
     (Z.rem (timeLeft s - 1) HINT_INTERVAL =? 0)
       && negb (timeLeft s - 1 =? ROUND_TIME) && (0 <? timeLeft s - 1)
     = true ∧
     revealedHintCount s'
       = Nat.min (revealedHintCount s + 1) (length (hints w)) ∧
     (revealedIndices s' = revealedIndices s ∨
      ∃ i, revealedIndices s' = revealedIndices s ++ [i] ∧
           i ∈ available w (revealedIndices s)))) as Hsame.
  { intros s' (-> & -> & ->) ->. split; [done|]. left. auto. }
  destruct e as [env|env|text|others0 env a]; simpl.
  - unfold timerFires.
    destruct (isHost s && bool_decide (gameStatus s = PLAYING));
      [|apply Hsame; [apply sameReveal_refl|reflexivity]].
    unfold tick. destruct (Z.leb_spec (timeLeft s) 1) as [Hle|Hgt].
    { split; [done|]. left. split; [|done]. right. left. done. }
    destruct (_ && _ && _) eqn:Hdue.
    + rewrite !andThen_state. simpl.
      destruct (handleGameTickHost_unfold s env s w Hw)
        as (newIndices & -> & Hnew). simpl.
      split; [done|]. right. split_and!; [lia|done|done|done|].
      destruct Hnew as [[-> _]|(i & -> & Hi)]; [by left|right; by exists i].
    + split; [done|]. left. split; [|done]. right. right. done.
  - apply Hsame; [apply handleGuess_frame|apply handleGuess_timeLeft].
  - apply Hsame; [apply sameReveal_refl|reflexivity].
  - apply Hsame; [by apply onGameAction_frame|by apply onGameAction_timeLeft].
Qed.

Lemma hint_due_times t :
  1 ≤ t ≤ 59 →
  (Z.rem t HINT_INTERVAL =? 0) && negb (t =? ROUND_TIME) && (0 <? t) = true ↔
  t = 15 ∨ t = 30 ∨ t = 45.
Proof.
  intros Ht. unfold HINT_INTERVAL, ROUND_TIME.
  rewrite !andb_true_iff, negb_true_iff, Z.eqb_eq, Z.eqb_neq, Z.ltb_lt.
  rewrite Z.rem_mod_nonneg by lia.
  split.
  - intros [[Hmod _] _]. apply Z.mod_divide in Hmod as [q Hq]; lia.
  - intros [-> | [-> | ->]]; split_and!; done || lia.
Qed.

(** X18. A hint reveal step is broadcast on exactly three ticks of a
    round: the ones that bring the clock to 45, 30 and 15 seconds. *)
Theorem hint_schedule env s w :
  isHost s = true → gameStatus s = PLAYING → currentWord s = Some w →
  1 < timeLeft s ≤ ROUND_TIME →
  (∃ indices count,
     broadcastAction (SYNC_HINT_UPDATE indices count)
       ∈ (timerFires env s).2) ↔
  timeLeft s = 46 ∨ timeLeft s = 31 ∨ timeLeft s = 16.
Proof.
  intros Hhost Hplaying Hw [Hgt Hle]. unfold ROUND_TIME in Hle.
  unfold timerFires, tick. rewrite Hhost, Hplaying. simpl.
  rewrite (proj2 (Z.leb_gt _ _)) by lia.
  pose proof (hint_due_times (timeLeft s - 1)) as Hdue.
  destruct (_ && _ && _).
  - rewrite !andThen_effects. simpl.
    destruct (handleGameTickHost_unfold s env s w Hw)
      as (newIndices & -> & _). simpl.
    split; [intros _; lia|]. intros _. do 2 eexists. apply list_elem_of_here.
  - simpl. split; [|lia].
    intros (? & ? & Hin). apply list_elem_of_singleton in Hin. discriminate.
Qed.

Lemma hintStepsBy_step t :
  1 ≤ t ≤ 59 →
  (hintStepsBy (t + 1) ≤ hintStepsBy t)%nat ∧
  (t = 15 ∨ t = 30 ∨ t = 45 → hintStepsBy t = S (hintStepsBy (t + 1))).
Proof.
  intros Ht. unfold hintStepsBy.
  repeat match goal with
         | |- context [?a <=? ?b] => destruct (Z.leb_spec a b)
         end; lia.
Qed.

Lemma hostRun_clock w es : ∀ s,
  Forall inRound es → currentWord s = Some w →
  0 ≤ timeLeft s ≤ ROUND_TIME →
  (length (revealedIndices s) ≤ hintStepsBy (timeLeft s))%nat →
  0 ≤ timeLeft (hostRun s es) ≤ ROUND_TIME ∧
  (length (revealedIndices (hostRun s es))
     ≤ hintStepsBy (timeLeft (hostRun s es)))%nat.
Proof.
  induction es as [|e es IH]; intros s Hes Hw Ht Hlen; simpl; [done|].
  apply Forall_cons in Hes as [He Hes].
  destruct (hostStep_round w s e He Hw) as (Hw' & Hcases).
  unfold ROUND_TIME in Ht |- *.
  apply IH; [done|done| |].
  - unfold ROUND_TIME.
    destruct Hcases as [(Htime & _)|(Hgt & -> & _)]; [|lia].
    destruct Htime as [-> | [[Hle ->] | (Hgt & -> & _)]]; lia.
  - destruct Hcases as [(Htime & -> & _)|(Hgt & -> & Hdue & _ & Hrev)].
    + destruct Htime as [-> | [[Hle ->] | (Hgt & -> & _)]]; [done| |].
      * assert (hintStepsBy (timeLeft s) = 3%nat) as Hthree.
        { unfold hintStepsBy. by rewrite (proj2 (Z.leb_le _ _)) by lia. }
        change (hintStepsBy 0) with 3%nat. lia.
      * destruct (hintStepsBy_step (timeLeft s - 1)) as [Hmono _]; [lia|].
        replace (timeLeft s - 1 + 1) with (timeLeft s) in Hmono by lia. lia.
    + apply hint_due_times in Hdue; [|lia].
      destruct (hintStepsBy_step (timeLeft s - 1)) as [_ Hstep]; [lia|].
      specialize (Hstep Hdue).
      replace (timeLeft s - 1 + 1) with (timeLeft s) in Hstep by lia.
      destruct Hrev as [->|(i & -> & _)]; [lia|].
      rewrite length_app. simpl. lia.
Qed.

(** X19. Throughout a round the clock stays between 0 and the round
    time, and the number of revealed letters never exceeds the number of
    hint steps the clock has passed: at most one at 45 seconds or more,
    two at 30, and three in all. *)
Theorem round_clock_and_reveals env w roundNum list s0 es :
  Forall inRound es →
  let s := hostRun (startRoundHost env (Some w) roundNum list s0).1 es in
  0 ≤ timeLeft s ≤ ROUND_TIME ∧
  (length (revealedIndices s) ≤ hintStepsBy (timeLeft s))%nat ∧
  (length (revealedIndices s) ≤ 3)%nat.
Proof.
  intros Hes s.
  destruct (hostRun_clock w es (startRoundHost env (Some w) roundNum list s0).1
              Hes eq_refl) as [Ht Hlen]; [done|simpl; lia|].
  fold s in Ht, Hlen. split_and!; [lia|lia|done|].
  etrans; [exact Hlen|]. unfold hintStepsBy.
  repeat match goal with
         | |- context [?a <=? ?b] => destruct (Z.leb_spec a b)
         end; lia.
Qed.

Lemma hostRun_revealed w es : ∀ s,
  Forall inRound es → currentWord s = Some w →
  NoDup (revealedIndices s) → Forall (letterIndex w) (revealedIndices s) →
  NoDup (revealedIndices (hostRun s es)) ∧
  Forall (letterIndex w) (revealedIndices (hostRun s es)).
Proof.
  induction es as [|e es IH]; intros s Hes Hw Hnd Hall; simpl; [done|].
  apply Forall_cons in Hes as [He Hes].
  destruct (hostStep_round w s e He Hw) as (Hw' & Hcases).
  apply IH; [done|done| |].
  - destruct Hcases as [(_ & -> & _)|(_ & _ & _ & _ & [->|(i & -> & Hi)])];
      [done|done|].
    apply available_spec in Hi as [Hnew _].
    apply NoDup_app. split_and!; [done| |apply NoDup_singleton].
    intros x Hx ->%list_elem_of_singleton. done.
  - destruct Hcases as [(_ & -> & _)|(_ & _ & _ & _ & [->|(i & -> & Hi)])];
      [done|done|].
    apply available_spec in Hi as [_ Hletter].
    apply Forall_app. split; [done|]. by apply Forall_singleton.
Qed.

(** X20. Throughout a round every revealed index is a letter position of
    the current word, never a space and never outside the word, and no
    index is revealed twice. *)
Theorem revealed_indices_valid env w roundNum list s0 es :
  Forall inRound es →
  let s := hostRun (startRoundHost env (Some w) roundNum list s0).1 es in
  NoDup (revealedIndices s) ∧
  Forall (letterIndex w) (revealedIndices s).
Proof.
  intros Hes.
  apply (hostRun_revealed w es); [done|done|apply NoDup_nil_2|
                                  apply Forall_nil_2].
Qed.

(** ** What every participant keeps *)

Lemma findPlayer_id i ps p : findPlayer i ps = Some p → p_id p = i.
Proof.
  unfold findPlayer. intros ([j q] & Hfind & ->)%fmap_Some.
  by apply list_find_Some in Hfind as (_ & Hid & _).
Qed.

Lemma handleGameTickHost_keeps cl env s :
  wordList (handleGameTickHost cl env s).1 = wordList s ∧
  roundWinners (handleGameTickHost cl env s).1 = roundWinners s.
Proof. unfold handleGameTickHost. by destruct (currentWord cl). Qed.

Lemma timerFires_keeps env s :
  wordList (timerFires env s).1 = wordList s ∧
  roundWinners (timerFires env s).1 = roundWinners s.
Proof.
  unfold timerFires, tick.
  destruct (isHost s && _); [|done].
  destruct (timeLeft s <=? 1); [done|].
  destruct (handleGameTickHost_keeps s env s) as [Hl Hw].
  destruct (_ && _ && _); [|done].
  rewrite !andThen_state. simpl. done.
Qed.

Lemma handleGuess_keeps cl env s :
  wordList (handleGuess cl env s).1 = wordList s ∧
  winnersStep s (handleGuess cl env s).1.
Proof.
  unfold handleGuess, winnersStep.
  destruct (player cl) as [me|], (currentWord cl) as [w|]; auto.
  destruct (_ || _); [auto|].
  destruct (String.eqb _ (word w)); [|auto].
  simpl. destruct (hasPlayer _ _) eqn:Hhas; simpl; [auto|].
  split; [done|]. right. right. eexists. split; [done|]. simpl.
  rewrite <- hasPlayer_true. by rewrite Hhas.
Qed.

Lemma applyPlayerScored_keeps others0 h env pid score pts name s :
  wordList (applyPlayerScored others0 h env pid score pts name s).1
    = wordList s ∧
  winnersStep s (applyPlayerScored others0 h env pid score pts name s).1.
Proof.
  unfold applyPlayerScored, winnersStep. rewrite !andThen_state. simpl.
  destruct (hasPlayer pid (roundWinners s)) eqn:Hhas; simpl.
  { destruct h; auto. }
  assert (pid ∉ p_id <$> roundWinners s) as Hnew
    by (rewrite <- hasPlayer_true; by rewrite Hhas).
  destruct (findPlayer pid (roundWinners s)) as [p|] eqn:Hprev;
    [|destruct (findPlayer pid others0) as [p|] eqn:Hothers];
    (split; [by destruct h|]); right; right;
    (eexists; split; [by destruct h|]); simpl; try done.
  - by rewrite (findPlayer_id _ _ _ Hprev).
  - by rewrite (findPlayer_id _ _ _ Hothers).
Qed.

Lemma applySyncState_keeps env data s :
  wordList (applySyncState env data s).1 = wordList s ∧
  winnersStep s (applySyncState env data s).1.
Proof.
  unfold winnersStep.
  destruct data as [[st|] [cw|] [tl|] [[|rd]|] [ri|] [[|hc]|] mr];
    try destruct st; simpl; auto.
Qed.

Lemma onGameAction_keeps others0 env a s :
  wordList (onGameAction others0 env a s).1 = wordList s ∧
  winnersStep s (onGameAction others0 env a s).1.
Proof.
  unfold onGameAction. rewrite andThen_state.
  destruct a as [data|t|indices count|pid score points name|msg]; simpl.
  - destruct (applySyncState_keeps env data s) as [Hl Hw].
    by destruct (isHost s).
  - unfold winnersStep. destruct (isHost s); auto.
  - unfold winnersStep. destruct count, (isHost s); auto.
  - destruct (applyPlayerScored_keeps others0 (isHost s) env pid score points
                name s) as [Hl Hw].
    by destruct (isHost s).
  - unfold winnersStep. destruct (isHost s); auto.
Qed.

Lemma nextRoundHost_keeps cl env s :
  winnersStep s (nextRoundHost cl env s).1.
Proof.
  unfold nextRoundHost, winnersStep. destruct (wordList cl); [auto|].
  destruct (_ <=? _)%nat; auto.
Qed.

Lemma step_keeps s e :
  wordList (step s e).1 = wordList s ∧ winnersStep s (step s e).1.
Proof.
  destruct e as [[env|env|text|others0 env a]|others0 env m|cl env]; simpl.
  - destruct (timerFires_keeps env s) as [Hl Hw].
    split; [done|]. by left.
  - apply handleGuess_keeps.
  - split; [done|]. by left.
  - apply onGameAction_keeps.
  - destruct m as [h members|p|i| |a]; simpl;
      try (split; [done|]; by left).
    apply onGameAction_keeps.
  - split; [apply nextRoundHost_wordList|apply nextRoundHost_keeps].
Qed.

Lemma run_keeps es : ∀ s,
  NoDup (p_id <$> roundWinners s) →
  wordList (run s es) = wordList s ∧
  NoDup (p_id <$> roundWinners (run s es)).
Proof.
  induction es as [|e es IH]; intros s Hnd; simpl; [done|].
  destruct (step_keeps s e) as [Hl Hw].
  destruct (IH (step s e).1) as [Hl' Hnd'].
  - destruct Hw as [-> | [-> | (p & -> & Hp)]];
      [done|apply NoDup_nil_2|].
    rewrite fmap_app. apply NoDup_app.
    split_and!; [done| |apply NoDup_singleton].
    intros x Hx ->%list_elem_of_singleton. done.
  - split; [by rewrite Hl', Hl|done].
Qed.

(** X21. The list of round winners never holds a player twice: whatever
    a participant does and receives (ticks, guesses, chat, scores,
    snapshots, joins, leaves, promotions, due round advancements), the
    ids of its round winners stay pairwise distinct. *)
Theorem round_winners_distinct s0 es :
  NoDup (p_id <$> roundWinners s0) →
  NoDup (p_id <$> roundWinners (run s0 es)).
Proof. intros Hnd. by apply (run_keeps es s0). Qed.

(** X22. A participant that never started a game holds no word list, so
    even after it was promoted to host its round advancement does
    nothing: the round it took over can time out, but no next round is
    started and the game is never declared over. *)
Theorem promoted_host_cannot_advance s0 es env s :
  wordList s0 = [] →
  wordList (run s0 es) = [] ∧
  nextRoundHost (run s0 es) env s = (s, []).
Proof.
  intros Hempty.
  assert (wordList (run s0 es) = []) as Hl.
  { rewrite <- Hempty. clear Hempty. revert s0.
    induction es as [|e es IH]; intros s0; simpl; [done|].
    rewrite IH. apply step_keeps. }
  split; [done|]. unfold nextRoundHost. by rewrite Hl.
Qed.

(** ** A game, round by round *)

Lemma handleGuess_round cl env s : round (handleGuess cl env s).1 = round s.
Proof.
  unfold handleGuess.
  destruct (player cl) as [me|], (currentWord cl) as [w|]; try done.
  destruct (_ || _); [done|].
  destruct (String.eqb _ (word w)); [|done].
  simpl. by destruct (hasPlayer _ _).
Qed.

Lemma applyPlayerScored_round others0 isHostRef env pid score points name s :
  round (applyPlayerScored others0 isHostRef env pid score points name s).1
    = round s.
Proof.
  unfold applyPlayerScored. rewrite !andThen_state. simpl.
  destruct (hasPlayer _ _); [by destruct isHostRef|].
  destruct (findPlayer pid (roundWinners s)), (findPlayer pid others0);
    by destruct isHostRef.
Qed.

Lemma timerFires_round env s : round (timerFires env s).1 = round s.
Proof.
  unfold timerFires, tick.
  destruct (isHost s && _); [|done].
  destruct (timeLeft s <=? 1); [done|].
  destruct (_ && _ && _); [|done].
  rewrite !andThen_state. simpl.
  unfold handleGameTickHost. by destruct (currentWord s).
Qed.

(** The events of a round change neither the round index nor the word
    list. *)
Lemma hostStep_keeps_round s e :
  inRound e →
  round (hostStep s e).1 = round s ∧ wordList (hostStep s e).1 = wordList s.
Proof.
  intros He. split; [|apply (step_keeps s (Base e))].
  destruct e as [env|env|text|others0 env a]; simpl.
  - apply timerFires_round.
  - apply handleGuess_round.
  - done.
  - destruct a as [| | |pid score points name|msg]; try done.
    + unfold onGameAction. rewrite andThen_state.
      pose proof (applyPlayerScored_round others0 (isHost s) env pid score
                    points name s) as Hround.
      by destruct (isHost s).
    + unfold onGameAction. by destruct (isHost s).
Qed.

Lemma hostRun_keeps_round es : ∀ s,
  Forall inRound es →
  round (hostRun s es) = round s ∧ wordList (hostRun s es) = wordList s.
Proof.
  induction es as [|e es IH]; intros s Hes; simpl; [done|].
  apply Forall_cons in Hes as [He Hes].
  destruct (hostStep_keeps_round s e He) as [Hr Hl].
  destruct (IH (hostStep s e).1 Hes) as [Hr' Hl']. split; congruence.
Qed.

(** Between rounds: after [j] rounds the host holds the word list, the
    round index is [j + 1] capped at the number of words, and it plays
    word [j] or, with no word left, the game is over. *)
Lemma play_rounds env words rounds : ∀ j s,
  words ≠ [] →
  Forall (λ r, Forall inRound r.1 ∧ Forall inRound r.2) rounds →
  wordList s = words → round s = Nat.min (j + 1) (length words) →
  (j = 0%nat → gameStatus s = PLAYING ∧ currentWord s = words !! 0%nat) →
  let final := play env rounds s in
  let n := (j + length rounds)%nat in
  wordList final = words ∧
  round final = Nat.min (n + 1) (length words) ∧
  (rounds ≠ [] ∨ j = 0%nat →
   ((n < length words)%nat →
      gameStatus final = PLAYING ∧ currentWord final = words !! n) ∧
   ((length words ≤ n)%nat → gameStatus final = GAME_OVER)).
Proof.
  induction rounds as [|[before after] rounds IH];
    intros j s Hne Hall Hl Hr Hstart; simpl.
  - rewrite Nat.add_0_r. split_and!; [done|done|].
    intros [?| ->]; [done|]. destruct (Hstart eq_refl) as [Hs Hw].
    split; [done|]. intros Hle. destruct words; [done|simpl in Hle; lia].
  - apply Forall_cons in Hall as [[Hbefore Hafter] Hall]. simpl in *.
    destruct (hostRun_keeps_round before s Hbefore) as [Hr1 Hl1].
    destruct (hostRun_keeps_round after (hostRun s before) Hafter)
      as [Hr2 Hl2].
    set (cl := hostRun s before) in *. set (due := hostRun cl after) in *.
    destruct (nextRoundHost_cases cl env due) as [Hnext Hover].
    pose proof (nextRoundHost_wordList cl env due) as Hl3.
    assert (0 < length words)%nat as Hpos
      by (destruct words; [done|simpl; lia]).
    replace (j + S (length rounds))%nat with (S j + length rounds)%nat
      by lia.
    destruct (decide (j + 1 < length words)%nat) as [Hlt|Hge].
    + destruct Hnext as (H1 & H2 & _ & _ & H5 & _);
        [rewrite Hr1, Hl1, Hl, Hr; lia|].
      destruct (IH (S j) (nextRoundHost cl env due).1 Hne Hall)
        as (Hfl & Hfr & Hfs); [congruence|rewrite H2, Hr1, Hr; lia|done|].
      split_and!; [done|done|]. intros _.
      destruct rounds as [|r rounds'].
      * simpl in *. rewrite Nat.add_0_r.
        split; [|lia]. intros _. split; [done|].
        rewrite H5, Hl1, Hl, Hr1, Hr. f_equal. lia.
      * apply Hfs. by left.
    + destruct Hover as (H1 & H2 & _);
        [by rewrite Hl1, Hl|rewrite Hr1, Hl1, Hl, Hr; lia|].
      destruct (IH (S j) (nextRoundHost cl env due).1 Hne Hall)
        as (Hfl & Hfr & Hfs);
        [congruence|rewrite H2, Hr2, Hr1, Hr; lia|done|].
      split_and!; [done|done|]. intros _.
      destruct rounds as [|r rounds'].
      * simpl in *. rewrite Nat.add_0_r. split; [lia|done].
      * apply Hfs. by left.
Qed.

(** X15. A host that starts a game on a non-empty word list plays the
    words in order, one per round, whatever happens inside the rounds
    (ticks, guesses, chat and score events), as long as each round's
    [nextRoundHost] runs once, with the closure of the moment its timeout
    was set in that round: after [k] rounds, with [k] below the number of
    words, round [k + 1] is being played on word [k]; after as many rounds
    as there are words, or more, the game is over and the round index is
    the number of words. *)
Theorem game_plays_every_word_once cl env words s rounds :
  isHost cl = true → words ≠ [] →
  Forall (λ r, Forall inRound r.1 ∧ Forall inRound r.2) rounds →
  let final := play env rounds (startGameAsHost cl env words s).1 in
  ((length rounds < length words)%nat →
     gameStatus final = PLAYING ∧
     round final = (length rounds + 1)%nat ∧
     currentWord final = words !! length rounds) ∧
  ((length words ≤ length rounds)%nat →
     gameStatus final = GAME_OVER ∧
     round final = length words).
Proof.
  intros Hhost Hne Hall final.
  destruct (startGameAsHost_state cl env words s Hhost)
    as (Hl & Hr & Hs & Hw).
  assert (0 < length words)%nat as Hpos
    by (destruct words; [done|simpl; lia]).
  destruct (play_rounds env words rounds 0 (startGameAsHost cl env words s).1
              Hne Hall Hl) as (_ & Hround & Hstate);
    [rewrite Hr; lia|done|].
  fold final in Hround, Hstate. simpl in Hround, Hstate.
  destruct Hstate as [Hplaying Hover]; [by right|].
  split.
  - intros Hlt. destruct (Hplaying Hlt) as [H1 H2].
    split_and!; [done|lia|done].
  - intros Hge. split; [by apply Hover|lia].
Qed.

(** ** Joining: what the relay answers and the joiner shows *)

Lemma filter_fmap {A B} (f : A → B) (P : B → Prop) `{!∀ y, Decision (P y)}
    (l : list A) :
  filter P (f <$> l) = f <$> filter (λ x, P (f x)) l.
Proof.
  induction l as [|a l IH]; [done|].
  rewrite fmap_cons, !filter_cons, IH. by destruct (decide (P (f a))).
Qed.

Lemma length_filter_others (ids : list string) i :
  NoDup ids → i ∈ ids →
  length (filter (λ j, j ≠ i) ids) = (length ids - 1)%nat.
Proof.
  induction ids as [|j ids IH]; intros Hnd Hin; [by apply elem_of_nil in Hin|].
  apply NoDup_cons in Hnd as [Hj Hnd]. rewrite filter_cons. simpl.
  destruct (decide (j ≠ i)) as [Hne|Heq].
  - apply elem_of_cons in Hin as [->|Hin]; [done|].
    simpl. rewrite IH by done.
    destruct ids; [by apply elem_of_nil in Hin|simpl; lia].
  - assert (j = i) as -> by (by destruct (decide (j = i))).
    rewrite filter_all; [lia|]. intros x Hx ->. done.
Qed.

Lemma joinRoom_reply isOpen st c roomId me :
  Relay.registry_ok st →
  ∃ room rest,
    Relay.rooms (Relay.joinRoom isOpen st c roomId me).1 !! roomId
      = Some room ∧
    (Relay.joinRoom isOpen st c roomId me).2
      = (c, Relay.ROOM_JOINED (bool_decide (Relay.hostId room = p_id me))
              (Relay.mem_player <$> Relay.players room)) :: rest ∧
    NoDup (Relay.mem_id <$> Relay.players room) ∧
    p_id me ∈ Relay.mem_id <$> Relay.players room.
Proof.
  intros Hok. unfold Relay.joinRoom. simpl. rewrite lookup_insert_eq.
  eexists _, _. split; [reflexivity|]. split; [reflexivity|]. simpl.
  destruct (Relay.rooms st !! roomId) as [old|] eqn:Hold.
  - destruct (Hok _ _ Hold) as [Hnd _].
    by destruct (joined_ids c me (Relay.players old) Hnd) as (? & ? & _).
  - by destruct (joined_ids c me [] NoDup_nil_2) as (? & ? & _).
Qed.

(** X23. After a join, the joiner that applies the relay's [ROOM_JOINED]
    answer is host exactly if the registry says so, is in the lobby, and
    lists as other players the room's members without itself, in join
    order: one fewer than the room has. *)
Theorem room_joined_view isOpen tr c roomId me others0 env s :
  player s = Some me →
  let joined :=
    Relay.joinRoom isOpen (Relay.run Relay.init tr) c roomId me in
  ∃ room isHostNow members rest,
    Relay.rooms joined.1 !! roomId = Some room ∧
    joined.2 = (c, Relay.ROOM_JOINED isHostNow members) :: rest ∧
    let s' :=
      (onServerMsg others0 env (Relay.ROOM_JOINED isHostNow members) s).1 in
    isHost s' = bool_decide (Relay.hostId room = p_id me) ∧
    gameStatus s' = LOBBY ∧
    p_id <$> otherPlayers s'
      = filter (λ i, i ≠ p_id me) (Relay.mem_id <$> Relay.players room) ∧
    length (otherPlayers s') = (length (Relay.players room) - 1)%nat.
Proof.
  intros Hme joined.
  destruct (joinRoom_reply isOpen _ c roomId me (run_registry_ok tr))
    as (room & rest & Hroom & Hout & Hnd & Hin).
  exists room, (bool_decide (Relay.hostId room = p_id me)),
    (Relay.mem_player <$> Relay.players room), rest.
  split; [done|]. split; [done|]. simpl. rewrite Hme. simpl.
  assert (p_id <$> filter (λ p, Some (p_id p) ≠ Some (p_id me))
                     (Relay.mem_player <$> Relay.players room)
          = filter (λ i, i ≠ p_id me) (Relay.mem_id <$> Relay.players room))
    as Hids.
  { rewrite !filter_fmap, <- list_fmap_compose. f_equal.
    apply list_filter_iff. intros m. unfold Relay.mem_id. simpl.
    split; [intros Hne Heq; apply Hne; by rewrite Heq|congruence]. }
  split_and!; [done|done|done|].
  rewrite <- (length_fmap p_id), Hids, length_filter_others by done.
  by rewrite length_fmap.
Qed.

End RoundFacts.

(* ===================================================================== *)
(** * The board, the hints and the lobby form *)
(* ===================================================================== *)

Section ViewFacts.
Import View.

Lemma get_list_ascii (s : string) : ∀ i,
  String.get i s = list_ascii_of_string s !! i.
Proof.
  induction s as [|a s IH]; intros [|i]; simpl; auto.
Qed.

(** X24. The board has one slot per character of the word, and a slot
    shows its letter exactly when the character is not a space and its
    index is revealed or the round is over; no other letter is shown. *)
Theorem slots_show_only_revealed w revealed status i c :
  length (slots w revealed status) = String.length (word w) ∧
  (slots w revealed status !! i = Some (Shown c) ↔
   String.get i (word w) = Some c ∧ c ≠ " "%char ∧
   (i ∈ revealed ∨ isGameOver status = true)).
Proof.
  unfold slots. split.
  - rewrite length_imap. induction (word w) as [|a s IH]; simpl; auto.
  - rewrite list_lookup_imap, get_list_ascii.
    destruct (list_ascii_of_string (word w) !! i) as [a|]; simpl.
    + case_bool_decide as Hspace.
      { split; [done|]. intros ([= ->] & Hc & _). done. }
      destruct (bool_decide (i ∈ revealed) || isGameOver status) eqn:Hrev.
      * apply orb_true_iff in Hrev. rewrite bool_decide_eq_true in Hrev.
        split; [intros [= ->]; done|]. by intros ([= ->] & _).
      * apply orb_false_iff in Hrev as [Hrev Hover].
        rewrite bool_decide_eq_false in Hrev.
        split; [done|]. intros (_ & _ & [Hin|Hov]); [done|congruence].
    + split; [done|]. by intros (? & _).
Qed.

Lemma visible_from (hs : list string) count over : ∀ k,
  length (filter (λ l : bool * string, l.1)
            (imap (λ index hint,
                     let isVisible := ((k + index) <? count)%nat || over in
                     (isVisible, if isVisible then hint else "Locked hint..."))
                  hs))
  = if over then length hs else Nat.min (count - k) (length hs).
Proof.
  induction hs as [|h hs IH]; intros k.
  - simpl. destruct over; [done|lia].
  - rewrite imap_cons.
    rewrite (imap_ext _ (λ index hint,
               let isVisible := ((S k + index) <? count)%nat || over in
               (isVisible, if isVisible then hint else "Locked hint...")))
      by (intros j x _; simpl; by replace (k + S j)%nat with (S (k + j)) by lia).
    pose proof (IH (S k)) as IHk. simpl in IHk.
    rewrite filter_cons. simpl. rewrite Nat.add_0_r.
    destruct over; simpl in *.
    + rewrite orb_true_r. simpl. by rewrite IHk.
    + rewrite orb_false_r. destruct (Nat.ltb_spec k count); simpl.
      * rewrite IHk. lia.
      * rewrite IHk. lia.
Qed.

(** X25. While a round is running the number of hints shown is the hint
    count, capped at the number of hints; once the round or the game is
    over every hint is shown. *)
Theorem visible_hints_count w count status :
  length (filter (λ l : bool * string, l.1) (hintLines w count status))
  = if isGameOver status then length (hints w)
    else Nat.min count (length (hints w)).
Proof.
  unfold hintLines.
  pose proof (visible_from (hints w) count (isGameOver status) 0) as H.
  simpl in H. rewrite Nat.sub_0_r in H. exact H.
Qed.

(** X26. For a name and a room code of ASCII characters: what the lobby
    form lets through is trimmed and not empty, so for a room created with
    such a code the relay's cleanup on close runs: joining a room that did
    not exist and closing the connection leaves the registry's rooms as
    they were. *)
Theorem lobby_room_is_cleaned name code n r isOpen isOpen' st c player :
  App.isAscii name → App.isAscii code →
  handleSubmit name code = Some (n, r) →
  Relay.rooms st !! r = None →
  n = App.trim name ∧ r = App.trim code ∧ n ≠ "" ∧ r ≠ "" ∧
  Relay.rooms
    (Relay.onClose isOpen' (Relay.joinRoom isOpen st c r player).1 c).1
    = Relay.rooms st.
Proof.
  unfold handleSubmit. intros _ _ Hsubmit Hnone.
  destruct (String.eqb_spec (App.trim name) "") as [|Hn]; [done|].
  destruct (String.eqb_spec (App.trim code) "") as [|Hr]; [done|].
  simpl in Hsubmit. injection Hsubmit as <- <-.
  split_and!; try done. by apply join_close_rooms.
Qed.

End ViewFacts.

(* ===================================================================== *)
(** * The further theorems at concrete inputs *)
(* ===================================================================== *)

Lemma room_teardown_witness :
  Relay.rooms (Relay.onClose allOpen roomAnn 0%nat).1 !! "ABC" = None ∧
  (Relay.onClose allOpen roomAnn 0%nat).2 = [].
Proof.
  destruct (room_teardown allOpen roomAnn 0%nat "ABC"
              (Relay.mkRoom [annMember] "p1")) as (Hgone & Hsent & _);
    [reflexivity|discriminate|reflexivity|reflexivity|].
  split; [exact Hgone|exact Hsent].
Defined.

Lemma member_leaves_witness :
  Relay.rooms (Relay.onClose allOpen roomABC 1%nat).1 !! "ABC"
    = Some (Relay.mkRoom [annMember] "p1") ∧
  (Relay.onClose allOpen roomABC 1%nat).2
    = [(0%nat, Relay.PLAYER_LEFT (Some "p2"))].
Proof.
  destruct (member_leaves allOpen roomABC 1%nat "ABC" "p2"
              (Relay.mkRoom [annMember; bobMember] "p1"))
    as (Hroom & _ & Hsent);
    [reflexivity|discriminate|reflexivity|reflexivity|discriminate
    |discriminate|].
  split; [exact Hroom|exact Hsent].
Defined.

Lemma join_creates_room_witness :
  Relay.rooms (Relay.joinRoom allOpen Relay.init 0%nat "ABC" ann).1 !! "ABC"
    = Some (Relay.mkRoom [annMember] "p1") ∧
  (Relay.joinRoom allOpen Relay.init 0%nat "ABC" ann).2
    = [(0%nat, Relay.ROOM_JOINED true [ann])].
Proof. apply (join_creates_room allOpen Relay.init 0%nat "ABC" ann). reflexivity. Defined.

Lemma join_existing_room_witness :
  Relay.rooms (Relay.joinRoom allOpen roomAnn 1%nat "ABC" bob).1 !! "ABC"
    = Some (Relay.mkRoom [annMember; bobMember] "p1") ∧
  (Relay.joinRoom allOpen roomAnn 1%nat "ABC" bob).2
    = [(1%nat, Relay.ROOM_JOINED false [ann; bob]);
       (0%nat, Relay.PLAYER_JOINED bob)].
Proof.
  apply (join_existing_room allOpen joinAnn 1%nat "ABC" bob
           (Relay.mkRoom [annMember] "p1")); [reflexivity|].
  vm_compute. intros Hin. inversion Hin as [|? ? ? Hin']; inversion Hin'.
Defined.

Lemma rejoin_updates_in_place_witness :
  Relay.rooms (Relay.joinRoom allOpen roomABC 2%nat "ABC" bobby).1 !! "ABC"
    = Some (Relay.mkRoom
              [annMember;
               Relay.mkMember (mkPlayer "p2" "Bobby" 0 true "bg-blue-500")
                 2%nat] "p1") ∧
  (Relay.joinRoom allOpen roomABC 2%nat "ABC" bobby).2
    = [(2%nat, Relay.ROOM_JOINED false
                 [ann; mkPlayer "p2" "Bobby" 0 true "bg-blue-500"]);
       (0%nat, Relay.PLAYER_JOINED bobby)].
Proof.
  destruct (rejoin_updates_in_place allOpen joinABC 2%nat "ABC" bobby
              (Relay.mkRoom [annMember; bobMember] "p1") 1%nat bobMember)
    as (Hroom & _ & Hsent); [reflexivity|reflexivity|reflexivity|].
  split; [exact Hroom|exact Hsent].
Defined.

Lemma empty_code_room_never_cleaned_witness :
  ∃ room, Relay.rooms
            (Relay.run roomNoCode [(allOpen, Relay.Close 0%nat)]) !! ""
          = Some room ∧
          ["p1"] `prefix_of` Relay.mem_id <$> Relay.players room.
Proof.
  apply (empty_code_room_never_cleaned [(allOpen, Relay.Close 0%nat)]
           roomNoCode (Relay.mkRoom [annMember] "p1")).
  reflexivity.
Defined.

Lemma join_then_leave_witness :
  let joined := Relay.joinRoom allOpen Relay.init 0%nat "ABC" ann in
  Relay.rooms (Relay.onClose allOpen joined.1 0%nat).1
    = Relay.rooms Relay.init ∧
  joined.2 ++ (Relay.onClose allOpen joined.1 0%nat).2
    = [(0%nat, Relay.ROOM_JOINED true [ann])].
Proof.
  apply (join_then_leave allOpen allOpen Relay.init 0%nat "ABC" ann);
    [reflexivity|discriminate].
Defined.

Lemma queue_flushed_in_order_witness :
  (Socket.sendAllRaw firstMessages connecting).2 = [] ∧
  (Socket.onopen (Socket.sendAllRaw firstMessages connecting).1).2
    = [Socket.wsSend 7 (Relay.JOIN_ROOM "ABC" ann);
       Socket.wsSend 7 (Relay.GAME_ACTION_req (SYNC_TIME 59))].
Proof.
  destruct (queue_flushed_in_order connecting firstMessages 7)
    as (Hquiet & Hsent & _); [reflexivity|reflexivity|].
  split; [exact Hquiet|exact Hsent].
Defined.

Lemma unsubscribe_removes_listener_witness :
  let s := Socket.on "GAME_ACTION" 1%nat Socket.fresh in
  Socket.emit "GAME_ACTION" None
    (Socket.unsubscribe "GAME_ACTION" 2%nat (Socket.on "GAME_ACTION" 2%nat s))
  = Socket.emit "GAME_ACTION" None s.
Proof.
  destruct (unsubscribe_removes_listener
              (Socket.on "GAME_ACTION" 1%nat Socket.fresh) "GAME_ACTION"
              2%nat None) as (_ & _ & Hback & _).
  apply Hback. vm_compute. intros Hin.
  inversion Hin as [|? ? ? Hin']; inversion Hin'.
Defined.

Lemma generateWords_without_key_witness :
  length (Gemini.generateWords None Gemini.Raises Gemini.GIANT_WORD_LIST 50)
  = 30%nat.
Proof.
  destruct (generateWords_without_key None Gemini.Raises
              Gemini.GIANT_WORD_LIST 50) as (Hlen & _);
    [reflexivity|reflexivity|exact Hlen].
Defined.

Lemma guess_scores_iff_correct_witness :
  App.inputValue hostAboutToGuess = " banana " ∧
  ∃ i sc pts n,
    App.broadcastAction (PLAYER_SCORED i sc pts n)
      ∈ (App.handleGuess hostAboutToGuess env0 hostAboutToGuess).2.
Proof.
  split; [reflexivity|].
  apply (guess_scores_iff_correct hostAboutToGuess env0 hostAboutToGuess).
  - repeat (constructor; [vm_compute; lia|]); constructor.
  - exists ann, banana. split_and!; try reflexivity. discriminate.
Defined.


Lemma nextRoundHost_advances_witness :
  App.round (App.nextRoundHost hostRound1 env0 hostRound1).1 = 2%nat ∧
  App.gameStatus (App.nextRoundHost hostRound5 env0 hostRound5).1
    = GAME_OVER.
Proof.
  split.
  - destruct (nextRoundHost_advances hostRound1 env0 hostRound1)
      as [Hnext _].
    destruct Hnext as (_ & Hround & _); [vm_compute; lia|exact Hround].
  - destruct (nextRoundHost_advances hostRound5 env0 hostRound5)
      as [_ Hover].
    destruct Hover as (Hstatus & _);
      [discriminate|vm_compute; lia|exact Hstatus].
Defined.

Lemma game_plays_every_word_once_witness :
  let start := (App.startGameAsHost hostLobby env0 firstFive hostLobby).1 in
  (App.round (Client.play env0 twoRounds start) = 3%nat ∧
   App.currentWord (Client.play env0 twoRounds start) = firstFive !! 2%nat) ∧
  App.gameStatus (Client.play env0 fiveRounds start) = GAME_OVER.
Proof.
  split.
  - destruct (game_plays_every_word_once hostLobby env0 firstFive hostLobby
                twoRounds) as [Hplay _]; [reflexivity|discriminate| |].
    + repeat first [apply Forall_replicate | constructor].
    + destruct Hplay as (_ & Hround & Hword); [vm_compute; lia|].
      split; [exact Hround|exact Hword].
  - destruct (game_plays_every_word_once hostLobby env0 firstFive hostLobby
                fiveRounds) as [_ Hover]; [reflexivity|discriminate| |].
    + repeat first [apply Forall_replicate | constructor].
    + destruct Hover as (Hstatus & _); [vm_compute; lia|exact Hstatus].
Defined.

Lemma round_start_snapshot_syncs_client_witness :
  Client.roundView
    (Client.deliver [] env0
       (App.nextRoundHost hostRound1 env0 hostRound1).2 bobClient)
  = Client.roundView (App.nextRoundHost hostRound1 env0 hostRound1).1.
Proof.
  apply (round_start_snapshot_syncs_client hostRound1 env0 hostRound1 []
           env0 bobClient).
  vm_compute. lia.
Defined.

Lemma tick_keeps_client_in_sync_witness :
  Client.roundView
    (Client.deliver [] env0 (App.timerFires env0 hostRound1).2 bobRound1)
  = Client.roundView (App.timerFires env0 hostRound1).1.
Proof.
  apply (tick_keeps_client_in_sync env0 hostRound1 [] env0 bobRound1);
    [reflexivity|reflexivity|reflexivity| |reflexivity].
  intros w [= <-]. discriminate.
Defined.

Lemma hint_schedule_witness :
  ¬ ∃ indices count,
      App.broadcastAction (SYNC_HINT_UPDATE indices count)
        ∈ (App.timerFires env0 hostRound1).2.
Proof.
  intros Hhint.
  apply (hint_schedule env0 hostRound1 banana) in Hhint;
    [|reflexivity|reflexivity|reflexivity|by vm_compute].
  vm_compute in Hhint. destruct Hhint as [H|[H|H]]; discriminate H.
Defined.

Lemma round_clock_and_reveals_witness :
  let s := App.hostRun hostRound1 (replicate 40 (App.TimerFires env0)) in
  0 ≤ App.timeLeft s ≤ App.ROUND_TIME ∧
  (length (App.revealedIndices s) ≤ 3)%nat.
Proof.
  destruct (round_clock_and_reveals env0 banana 1 firstFive
              (App.setRound 1 (App.setWordList firstFive hostLobby))
              (replicate 40 (App.TimerFires env0)))
    as (Hclock & _ & Hthree); [apply Forall_replicate; exact I|].
  split; [exact Hclock|exact Hthree].
Defined.

Lemma revealed_indices_valid_witness :
  NoDup (App.revealedIndices
           (App.hostRun hostRound1 (replicate 40 (App.TimerFires env0)))).
Proof.
  destruct (revealed_indices_valid env0 banana 1 firstFive
              (App.setRound 1 (App.setWordList firstFive hostLobby))
              (replicate 40 (App.TimerFires env0)))
    as (Hnd & _); [apply Forall_replicate; exact I|exact Hnd].
Defined.

Lemma round_winners_distinct_witness :
  p_id <$> App.roundWinners annHasGuessed = ["p1"] ∧
  p_id <$> App.roundWinners (Client.run annHasGuessed moreScores)
    = ["p1"; "p2"] ∧
  NoDup (p_id <$> App.roundWinners (Client.run annHasGuessed moreScores)).
Proof.
  split_and!; [reflexivity|reflexivity|].
  apply (round_winners_distinct annHasGuessed moreScores).
  vm_compute. apply NoDup_singleton.
Defined.

Lemma promoted_host_cannot_advance_witness :
  App.wordList (Client.run bobRound1 bobPromoted) = [] ∧
  App.nextRoundHost (Client.run bobRound1 bobPromoted) env0 bobRound1
    = (bobRound1, []).
Proof.
  apply (promoted_host_cannot_advance bobRound1 bobPromoted env0 bobRound1).
  reflexivity.
Defined.

Lemma room_joined_view_witness :
  ∃ room isHostNow members rest,
    Relay.rooms (Relay.joinRoom allOpen roomAnn 1%nat "ABC" bob).1 !! "ABC"
      = Some room ∧
    (Relay.joinRoom allOpen roomAnn 1%nat "ABC" bob).2
      = (1%nat, Relay.ROOM_JOINED isHostNow members) :: rest ∧
    let s' := (Client.onServerMsg [] env0
                 (Relay.ROOM_JOINED isHostNow members) bobClient).1 in
    App.isHost s' = bool_decide (Relay.hostId room = p_id bob) ∧
    App.gameStatus s' = LOBBY ∧
    p_id <$> App.otherPlayers s'
      = filter (λ i, i ≠ p_id bob) (Relay.mem_id <$> Relay.players room) ∧
    length (App.otherPlayers s') = (length (Relay.players room) - 1)%nat.
Proof.
  apply (room_joined_view allOpen joinAnn 1%nat "ABC" bob [] env0 bobClient).
  reflexivity.
Defined.

Lemma lobby_room_is_cleaned_witness :
  "ABC" = App.trim " ABC " ∧
  Relay.rooms
    (Relay.onClose allOpen
       (Relay.joinRoom allOpen Relay.init 0%nat "ABC" ann).1 0%nat).1
  = Relay.rooms Relay.init.
Proof.
  destruct (lobby_room_is_cleaned " Ann " " ABC " "Ann" "ABC" allOpen allOpen
              Relay.init 0%nat ann) as (_ & Hcode & _ & _ & Hrooms);
    [repeat (constructor; [vm_compute; lia|]); constructor
    |repeat (constructor; [vm_compute; lia|]); constructor
    |reflexivity|reflexivity|].
  split; [exact Hcode|exact Hrooms].
Defined.
